(** * Board: the logical I/O layer of a Unipi Neuron board

    A shallow embedding of [Board] (the current class and its older
    revision) and the properties of its register codec, capability
    discovery, state cache, polling and supervised coil writes.

    Modelling conventions.
    - Register words delivered by the transport are unsigned 16-bit numbers;
      they are values of [N].  A JavaScript number that may also be [NaN] is
      a [number]; [undefined] is [None].
    - The caches [this.state] and [this.counter] are plain objects used as
      dictionaries and are finite maps keyed by strings.  A map holds the
      keys the class has written; the members a plain object inherits
      ([Object_prototype]) are not in it, so a lookup is that of the class
      for every id that names none of them, and the statements about ids
      that may be absent from the cache are for such ids.
    - Numerals are read and printed exactly; the statements about the
      numbers of an id or of a register are for integers that a double
      holds exactly (below 2^53).
    - [this.groups] is an array that is written by index and can have holes:
      a list of optional groups.
    - Every call that leaves the class (the Modbus client, the event emitter,
      timers, the loggers) and every write to the state cache is recorded, in
      program order, in the [trace] of the board; closures handed to the
      client or to [setTimeout] are defunctionalised. *)

From stdpp Require Import gmap strings pretty list.
From Stdlib Require Import ZArith Ascii.

Local Open Scope N_scope.

(** ** JavaScript values *)

Inductive number :=
  | Num (n : N)
  | NaN.

Global Instance number_eq_dec : EqDecision number.
Proof. solve_decision. Defined.

(** [a !== b] on numbers: [NaN] differs from every number, itself included. *)
Definition strict_neq (a b : number) : bool :=
  match a, b with
  | Num x, Num y => negb (x =? y)
  | _, _ => true
  end.

(** [currentValue !== value] where [currentValue] may be [undefined]. *)
Definition differs (cur : option number) (v : number) : bool :=
  match cur with
  | None => true
  | Some c => strict_neq c v
  end.

(** [value.toString()] *)
Definition toString (v : number) : string :=
  match v with
  | Num n => pretty n
  | NaN => "NaN"
  end.

(** [Boolean(x)] for a cached value. *)
Definition Boolean (x : option number) : bool :=
  match x with
  | Some (Num n) => negb (n =? 0)
  | Some NaN => false
  | None => false
  end.

(** [a + b] on array elements that may be missing. *)
Definition plus (a b : option N) : number :=
  match a, b with
  | Some x, Some y => Num (x + y)
  | _, _ => NaN
  end.

(** ** Strings *)

Definition chars : string → list ascii := String.list_ascii_of_string.
Definition unchars : list ascii → string := String.string_of_list_ascii.

(** [s.slice(-k)] *)
Definition slice_end (k : nat) (s : string) : string :=
  unchars (drop (length (chars s) - k) (chars s)).

(** [s.slice(a, b)] for [0 <= a <= b] *)
Definition slice (a b : nat) (s : string) : string :=
  unchars (take (b - a) (drop a (chars s))).

(** [s.split('')] *)
Definition split_chars (s : string) : list string :=
  (λ c, String c "") <$> chars s.

(** [s.split(sep)] for a one-character separator. *)
Fixpoint split (sep : ascii) (s : string) : list string :=
  match s with
  | "" => [""]
  | String c s' =>
      if decide (c = sep) then "" :: split sep s'
      else match split sep s' with
           | x :: xs => String c x :: xs
           | [] => [String c ""]
           end
  end.

(** [s.substr(s.length - 1, 1)]: the last character, or the empty string. *)
Definition last_char (s : string) : string :=
  match last (chars s) with
  | Some c => String c ""
  | None => ""
  end.

(** [a[i]] for an index that may be negative: an array has no element there. *)
Definition index {A} (l : list A) (i : Z) : option A :=
  if decide (0 ≤ i)%Z then l !! Z.to_nat i else None.

(** The value of a digit character in a radix of at most ten. *)
Definition digit (radix : N) (c : ascii) : option N :=
  match Ascii.is_nat c with
  | Some d => if N.of_nat d <? radix then Some (N.of_nat d) else None
  | None => None
  end.

(** The longest prefix of digits, read in the radix; [None] without a digit. *)
Fixpoint parse_digits (radix : N) (s : string) (acc : option N) : option N :=
  match s with
  | String c s' =>
      match digit radix c with
      | Some d => parse_digits radix s' (Some (radix * default 0 acc + d))
      | None => acc
      end
  | "" => acc
  end.

(** [parseInt(x, radix)] on the strings the class applies it to: bit strings,
    single characters and [undefined] (which is first converted to the string
    "undefined").  Signs, leading blanks and radix prefixes do not occur. *)
Definition parseInt (radix : N) (x : option string) : number :=
  match parse_digits radix (default "undefined" x) None with
  | Some n => Num n
  | None => NaN
  end.

(** [n.toString(2)] *)
Fixpoint pos_toString2 (p : positive) (acc : string) : string :=
  match p with
  | xH => String "1" acc
  | xO q => pos_toString2 q (String "0" acc)
  | xI q => pos_toString2 q (String "1" acc)
  end.

Definition toString2 (n : N) : string :=
  match n with
  | N0 => "0"
  | Npos p => pos_toString2 p ""
  end.

(** ** The register codec *)

(** [dec2bin(dec)].  [parseInt(dec, 10)] leaves a register word as it is
    (as it does every integer below 2^53, which is printed in full and read
    back) and turns [undefined] into [NaN], whose [toString(2)] is "NaN". *)
Definition dec2bin (dec : option N) : string :=
  let bin := match dec with Some n => toString2 n | None => "NaN" end in
  slice_end 16 ("0000000000000000" +:+ bin).


(** ** The board and its effects *)

(** A group capability record, [{id, di, do, ai, ao, serial}]. *)
Record group := Group {
  g_id : nat;
  g_di : number;
  g_do : number;
  g_ai : number;
  g_ao : number;
  g_serial : number;
}.

(** The error object of the transport; only its message is inspected. *)
Record error := Error { message : string }.

(** What the transport hands to a read callback: [(err, data)]. *)
Inductive response :=
  | Failure (err : error)
  | Success (data : list N).

(** The closures passed to [readHoldingRegisters], with what they capture. *)
Inductive callback :=
  | CapabilityCb (i : nat)
  | StateCb (g : group)
  | CountCb (g : group).

(** The closure passed to [setTimeout] by [set]. *)
Inductive timer :=
  | VerifyCb (id : string) (value : bool) (retries : nat).

Inductive report :=
  | Desc (errdesc : string)
  | Raw (err : error).

Inductive effect :=
  | Connect
  | SetID (id : N)
  | ReadHoldingRegisters (start : option Z) (count : number) (cb : callback)
  | WriteCoil (coilId : option Z) (value : bool)
  | Store (id : string) (value : number)
  | Emit (name id payload : string)
  | SetTimeout (cb : timer) (delay : N)
  | ConsoleLog (line : string)
  | LogError (r : report).

Global Instance group_eq_dec : EqDecision group.
Proof. solve_decision. Defined.
Global Instance error_eq_dec : EqDecision error.
Proof. solve_decision. Defined.
Global Instance callback_eq_dec : EqDecision callback.
Proof. solve_decision. Defined.
Global Instance timer_eq_dec : EqDecision timer.
Proof. solve_decision. Defined.
Global Instance report_eq_dec : EqDecision report.
Proof. solve_decision. Defined.
Global Instance effect_eq_dec : EqDecision effect.
Proof. solve_decision. Defined.

Record board := Board {
  state : gmap string number;
  counter : gmap string number;
  groups : list (option group);
  timers : list (timer * N);
  trace : list effect;
}.

Inductive exn :=
  | SyntaxError (msg : string)
  | TypeError.

Inductive result (A : Type) :=
  | Ok (a : A)
  | Throw (e : exn).
Global Arguments Ok {A} a.
Global Arguments Throw {A} e.

(** Methods run on the board and either return or throw; what they did up
    to a throw stays done. *)
Definition M (A : Type) : Type := board → result A * board.

Definition ret {A} (a : A) : M A := λ b, (Ok a, b).
Definition throw {A} (e : exn) : M A := λ b, (Throw e, b).
Definition bind {A B} (m : M A) (k : A → M B) : M B :=
  λ b, match m b with
       | (Ok a, b') => k a b'
       | (Throw e, b') => (Throw e, b')
       end.

Notation "x <~ m ;; k" := (bind m (λ x, k))
  (at level 100, m at next level, right associativity).
Notation "m ;> k" := (bind m (λ _, k))
  (at level 100, right associativity).

(** The board a method leaves behind. *)
Definition exec {A} (m : M A) (b : board) : board := (m b).2.

(** A call that leaves the class: it is appended to the trace. *)
Definition effectful (e : effect) : M unit :=
  λ b, (Ok tt, Board (state b) (counter b) (groups b) (timers b) (trace b ++ [e])).

(** [for (let i = 0; i < n; i++) body] *)
Fixpoint for_each {A} (l : list A) (body : A → M unit) : M unit :=
  match l with
  | [] => ret tt
  | x :: l' => body x ;> for_each l' body
  end.
Definition for_loop (n : nat) (body : nat → M unit) : M unit :=
  for_each (seq 0 n) body.

(** The number of iterations of [i < bound]: none when the bound is [NaN]. *)
Definition upto (bound : number) : nat :=
  match bound with
  | Num n => N.to_nat n
  | NaN => 0%nat
  end.

(** [a * k] *)
Definition times (a : number) (k : N) : number :=
  match a with
  | Num n => Num (n * k)
  | NaN => NaN
  end.

(** [getState(id)], for an id that names no inherited member of the cache
    ([Object_prototype] below). *)
Definition getState (id : string) : M (option number) :=
  λ b, (Ok (state b !! id), b).

(** [getCount(id)] *)
Definition getCount (id : string) : M (option number) :=
  λ b, (Ok (counter b !! id), b).

(** [this.state[id] = value] *)
Definition assign (id : string) (value : number) : M unit :=
  λ b, (Ok tt, Board (<[id := value]> (state b)) (counter b) (groups b)
                     (timers b) (trace b ++ [Store id value])).

(** [this.counter[id] = value] *)
Definition assign_counter (id : string) (value : number) : M unit :=
  λ b, (Ok tt, Board (state b) (<[id := value]> (counter b)) (groups b)
                     (timers b) (trace b)).

(** [a[i] = x] on an array: a write past the end extends it, leaving holes. *)
Definition array_set {A} (i : nat) (x : A) (a : list (option A)) : list (option A) :=
  if decide (i < length a)%nat then <[i := Some x]> a
  else a ++ replicate (i - length a) None ++ [Some x].

(** [this.groups[i] = g] *)
Definition assign_group (i : nat) (g : group) : M unit :=
  λ b, (Ok tt, Board (state b) (counter b) (array_set i g (groups b))
                     (timers b) (trace b)).

(** [setTimeout(cb, delay)] *)
Definition setTimeout (cb : timer) (delay : N) : M unit :=
  λ b, (Ok tt, Board (state b) (counter b) (groups b)
                     (timers b ++ [(cb, delay)]) (trace b ++ [SetTimeout cb delay])).

(** ** Transport errors *)

(** The table of Modbus exception codes, an object keyed by the codes. *)
Definition MODUS_ERRNO : gmap string string :=
  list_to_map [
    ("1", "Illegal Function");
    ("2", "Illegal Data Address");
    ("3", "Illegal Data Value");
    ("4", "Failure In Associated Device");
    ("5", "Acknowledge");
    ("6", "Busy, Rejected Message");
    ("7", "NAK – Negative Acknowledgement");
    ("8", "Memory Parity Error");
    ("10", "Gateway Path Unavailable");
    ("11", "Gateway Target Device Failed to respond")
  ].

(** [MODUS_ERRNO[parseInt(err.message.split(' ')[-1])]]: the number is
    turned into the property name it is looked up by. *)
Definition errdesc (err : error) : option string :=
  MODUS_ERRNO !! toString (parseInt 10 (index (split " " (message err)) (-1))).

(** [if (errdesc) error(errdesc); else error(err);] *)
Definition report_error (err : error) : M unit :=
  match errdesc err with
  | Some d => if decide (d = "") then effectful (LogError (Raw err))
              else effectful (LogError (Desc d))
  | None => effectful (LogError (Raw err))
  end.

(** ** The state store *)

(** The body of the loop of [storeState]: the cached entry of [id] is
    compared with the decoded value, written when it differs and announced
    when it was there before. *)
Definition update_entry (id : string) (value : number) : M unit :=
  currentValue <~ getState id ;;
  if differs currentValue value then
    assign id value ;>
    if bool_decide (currentValue ≠ None)
    then effectful (Emit "update" id (toString value))
    else ret tt
  else ret tt.

(** [storeState(prefix, value, length)] *)
Definition storeState (prefix : string) (value : option N) (length : number) : M unit :=
  let bin := dec2bin value in
  let arr := reverse (split_chars bin) in
  for_loop (upto length) (λ i,
    let id := prefix +:+ "." +:+ pretty (i + 1)%nat in
    let value := parseInt 10 (arr !! i) in
    update_entry id value).

(** The older revision of the class. *)
Module Legacy.

(** The body of the loop of [store]: the notification goes out before the
    cache is written. *)
Definition update_entry (id : string) (value : number) : M unit :=
  currentValue <~ getState id ;;
  if differs currentValue value then
    (if bool_decide (currentValue ≠ None)
     then effectful (Emit "update" id (toString value))
     else ret tt) ;>
    assign id value
  else ret tt.

(** [store(prefix, value, length)] *)
Definition store (prefix : string) (value : option N) (length : number) : M unit :=
  let bin := dec2bin value in
  let arr := reverse (split_chars bin) in
  for_loop (upto length) (λ i,
    let id := prefix +:+ "." +:+ pretty (i + 1)%nat in
    let value := parseInt 10 (arr !! i) in
    update_entry id value).

(** The record the older constructor builds from the single capability
    word it reads. *)
Record group := Group { g_id : nat; g_di : number; g_do : number }.

Definition capability (i : nat) (data : list N) : group :=
  let bin := dec2bin (data !! 0%nat) in
  {| g_id := i + 1;
     g_di := parseInt 2 (Some (slice 0 8 bin));
     g_do := parseInt 2 (Some (slice 8 16 bin)) |}.

End Legacy.

(** ** Capability discovery *)

(** The success branch of the discovery callback: the record built from the
    two capability words. *)
Definition capability (i : nat) (data : list N) : group :=
  let bin := dec2bin (data !! 0%nat) in
  let ext := dec2bin (data !! 1%nat) in
  {| g_id := i + 1;
     g_di := parseInt 2 (Some (slice 0 8 bin));
     g_do := parseInt 2 (Some (slice 8 16 bin));
     g_ai := parseInt 2 (Some (slice 4 8 ext));
     g_ao := parseInt 2 (Some (slice 8 16 ext));
     g_serial := parseInt 2 (Some (slice 0 4 ext)) |}.

(** The callback of the read issued for slot [i] by the constructor. *)
Definition capability_cb (i : nat) (r : response) : M unit :=
  match r with
  | Failure err => report_error err
  | Success data => assign_group i (capability i data)
  end.

(** The body of the constructor's [connect] callback. *)
Definition on_connect (id : N) (groups : nat) : M unit :=
  effectful (SetID id) ;>
  for_loop groups (λ i,
    let start := (1001 + Z.of_nat i * 100)%Z in
    effectful (ReadHoldingRegisters (Some start) (Num 2) (CapabilityCb i))).

(** [new Board(client, id, groups)] up to the call of [client.connect]. *)
Definition new_board : board :=
  {| state := ∅; counter := ∅; groups := []; timers := []; trace := [Connect] |}.

(** ** The write supervisor *)

(** [validate(id)], for an id that names no inherited member of the cache
    ([Object_prototype] below). *)
Definition validate (id : string) : M unit :=
  cur <~ getState id ;;
  match cur with
  | None => throw (SyntaxError ("Unknown ID: " +:+ id))
  | Some _ => ret tt
  end.

(** A string read as a decimal numeral; the empty string reads as zero. *)
Fixpoint decimal (s : string) (acc : N) : option N :=
  match s with
  | "" => Some acc
  | String c s' =>
      match digit 10 c with
      | Some d => decimal s' (10 * acc + d)
      | None => None
      end
  end.

(** The conversion applied by [x - 1] to a string taken from a point id;
    [None] is [NaN].  Only the decimal numerals that occur in point ids are
    read as numbers, and they are read exactly, as a double does below
    2^53; the other numeric literal forms are not modelled. *)
Definition toNumber (x : option string) : option Z :=
  match x with
  | None => None
  | Some s => Z.of_N <$> decimal s 0
  end.

(** [(group - 1) * 100 + (num - 1)] *)
Definition coil_address (id : string) : option Z :=
  let arr := split "." id in
  let group := last_char (default "" (arr !! 0%nat)) in
  let num := arr !! 1%nat in
  match toNumber (Some group), toNumber num with
  | Some g, Some n => Some ((g - 1) * 100 + (n - 1))%Z
  | _, _ => None
  end.

(** [set(id, value, retries)]; [value] is a boolean, as the method documents. *)
Definition set (id : string) (value : bool) (retries : nat) : M unit :=
  validate id ;>
  let coilId := coil_address id in
  effectful (WriteCoil coilId value) ;>
  if decide (retries < 5)%nat
  then setTimeout (VerifyCb id value retries) (100 * (N.of_nat retries + 1))
  else ret tt.

(** The body of the timer callback scheduled by [set]. *)
Definition verify (id : string) (value : bool) (retries : nat) : M unit :=
  cur <~ getState id ;;
  if bool_decide (Boolean cur ≠ value) then
    let retries := S retries in
    effectful (ConsoleLog ("Retry (" +:+ pretty retries +:+ ")")) ;>
    set id value retries
  else ret tt.

Definition run_timer (t : timer) : M unit :=
  match t with
  | VerifyCb id value retries => verify id value retries
  end.

(** ** The poll engine *)

(** The callback of a read issued by [updateState]. *)
Definition state_cb (group : group) (r : response) : M unit :=
  match r with
  | Failure err => report_error err
  | Success data =>
      storeState ("DI" +:+ pretty (g_id group)) (data !! 0%nat) (g_di group) ;>
      storeState ("DO" +:+ pretty (g_id group)) (data !! 1%nat) (g_do group)
  end.

(** [updateState()]: reading a property of a hole of [this.groups] throws. *)
Definition updateState : M unit :=
  λ b, for_loop (length (groups b)) (λ i,
    match mjoin (groups b !! i) with
    | None => throw TypeError
    | Some group =>
        let start := ((Z.of_nat (g_id group) - 1) * 100)%Z in
        effectful (ReadHoldingRegisters (Some start) (Num 2) (StateCb group))
    end) b.

Definition countStart : list Z := [8; 103; 203]%Z.

(** The callback of a read issued by [updateCount]. *)
Definition count_cb (group : group) (r : response) : M unit :=
  match r with
  | Failure err => report_error err
  | Success data =>
      for_loop (upto (g_di group)) (λ j,
        let id := "DI" +:+ pretty (g_id group) +:+ "." +:+ pretty (j + 1)%nat in
        assign_counter id (plus (data !! (j * 2)%nat) (data !! (j * 2 + 1)%nat)))
  end.

(** [updateCount()] *)
Definition updateCount : M unit :=
  λ b, for_loop (length (groups b)) (λ i,
    match mjoin (groups b !! i) with
    | None => throw TypeError
    | Some group =>
        effectful (ReadHoldingRegisters (countStart !! i) (times (g_di group) 2)
                                        (CountCb group))
    end) b.

Definition run_callback (cb : callback) (r : response) : M unit :=
  match cb with
  | CapabilityCb i => capability_cb i r
  | StateCb g => state_cb g r
  | CountCb g => count_cb g r
  end.

(** ** The life of a board *)

(** What happens to a board once it is constructed: the client connects, a
    read completes, the scheduler polls, a consumer sets a point, the
    [k]-th pending timer fires. *)
Inductive event :=
  | Connected (id : N) (groups : nat)
  | Responded (cb : callback) (r : response)
  | PollStates
  | PollCounters
  | SetPoint (id : string) (value : bool)
  | Fired (k : nat).

(** A callback runs only for a read that was issued with it. *)
Definition requested (cb : callback) (b : board) : bool :=
  existsb (λ e, match e with
                | ReadHoldingRegisters _ _ cb' => bool_decide (cb' = cb)
                | _ => false
                end) (trace b).

Definition take_timer (k : nat) : M (option timer) :=
  λ b, (Ok (fst <$> timers b !! k),
        Board (state b) (counter b) (groups b) (delete k (timers b)) (trace b)).

Definition handle (e : event) : M unit :=
  match e with
  | Connected id n => on_connect id n
  | Responded cb r => λ b, if requested cb b then run_callback cb r b else ret tt b
  | PollStates => updateState
  | PollCounters => updateCount
  | SetPoint id value => set id value 0
  | Fired k =>
      t <~ take_timer k ;;
      match t with
      | Some t => run_timer t
      | None => ret tt
      end
  end.

(** The board after a sequence of events.  An exception thrown by a handler
    ends that handler; the runs in which it ends the process as well are
    prefixes of these. *)
Definition run (es : list event) (b : board) : board :=
  foldl (λ b e, exec (handle e) b) b es.

Definition with_state (st : gmap string number) (b : board) : board :=
  Board st (counter b) (groups b) (timers b) (trace b).

(** The timers of a board on which no other method is called, run until
    none is pending: when the [k]-th of them fires, the polls have made the
    cache [caches k]. *)
Fixpoint supervise (fuel : nat) (caches : nat → gmap string number) (k : nat)
    (b : board) : option board :=
  match timers b with
  | [] => Some b
  | _ :: _ =>
      match fuel with
      | O => None
      | S fuel =>
          supervise fuel caches (S k) (exec (handle (Fired 0)) (with_state (caches k) b))
      end
  end.

(** ** Observations used in the statements *)

(** The names of the members a plain object inherits from
    [Object.prototype]: for these, and only these, [this.state[id]] is not
    [undefined] although the class has never written [id]. *)
Definition Object_prototype : list string :=
  ["constructor"; "__defineGetter__"; "__defineSetter__"; "hasOwnProperty";
   "__lookupGetter__"; "__lookupSetter__"; "isPrototypeOf";
   "propertyIsEnumerable"; "toString"; "valueOf"; "__proto__";
   "toLocaleString"].

Definition bit (n : N) (i : nat) : bool := N.testbit n (N.of_nat i).

Definition bitchar (b : bool) : ascii := if b then "1"%char else "0"%char.

(** The binary digits of a positive number, least significant first. *)
Fixpoint lsb_digits (p : positive) : list ascii :=
  match p with
  | xH => ["1"%char]
  | xO q => "0"%char :: lsb_digits q
  | xI q => "1"%char :: lsb_digits q
  end.

Definition lsb (n : N) : list ascii :=
  match n with
  | N0 => ["0"%char]
  | Npos p => lsb_digits p
  end.

(** The key under which [storeState] files index [i]. *)
Definition key (prefix : string) (i : nat) : string :=
  prefix +:+ "." +:+ pretty (i + 1)%nat.

(** The value [storeState] files under index [i] of the word [n]. *)
Definition decoded (value : option N) (i : nat) : number :=
  parseInt 10 (reverse (split_chars (dec2bin value)) !! i).

(** The notifications sent so far: event name, id and payload. *)
Definition notifications (t : list effect) : list (string * string * string) :=
  omap (λ e, match e with Emit name id p => Some (name, id, p) | _ => None end) t.

(** The coil writes issued so far: address and value. *)
Definition coil_writes (t : list effect) : list (option Z * bool) :=
  omap (λ e, match e with WriteCoil c v => Some (c, v) | _ => None end) t.

(** The delays of the timers set so far. *)
Definition timeouts (t : list effect) : list N :=
  omap (λ e, match e with SetTimeout _ d => Some d | _ => None end) t.

(** The reads issued so far: start address, register count and callback. *)
Definition reads (t : list effect) : list (option Z * number * callback) :=
  omap (λ e, match e with
             | ReadHoldingRegisters s c cb => Some (s, c, cb)
             | _ => None
             end) t.

(** The value of a list of bits, most significant first. *)
Definition bits_value (bs : list bool) : N :=
  foldl (λ a b, 2 * a + N.b2n b) 0 bs.

(** The body of the loop of [updateCount] over the groups [gs]. *)
Definition count_read (gs : list (option group)) (i : nat) : M unit :=
  match mjoin (gs !! i) with
  | None => throw TypeError
  | Some group =>
      effectful (ReadHoldingRegisters (countStart !! i) (times (g_di group) 2)
                                      (CountCb group))
  end.

(** The delay [set] asks for with [retries] retries behind it. *)
Definition retry_delay (retries : nat) : N := 100 * (N.of_nat retries + 1).

(** ** The invariant of the state cache *)

(** Every cached state is 0 or 1. *)
Definition boolean_cache (b : board) : Prop :=
  ∀ id v, state b !! id = Some v → v = Num 0 ∨ v = Num 1.

(** A group whose inputs and whose outputs fit one register. *)
Definition small_group (g : group) : Prop :=
  (upto (g_di g) ≤ 16)%nat ∧ (upto (g_do g) ≤ 16)%nat.

(** The transport delivers the two words asked for by a state read, and the
    device announces at most sixteen inputs and sixteen outputs per group. *)
Definition well_formed (e : event) : Prop :=
  match e with
  | Responded (CapabilityCb i) (Success data) => small_group (capability i data)
  | Responded (StateCb _) (Success data) => (2 ≤ length data)%nat
  | _ => True
  end.

(** What the events keep true of a board: the cache is boolean, and the
    groups discovered and the groups for which a state read is under way
    are small. *)
Definition cache_invariant (b : board) : Prop :=
  boolean_cache b ∧
  (∀ g, Some g ∈ groups b → small_group g) ∧
  (∀ s c g, ReadHoldingRegisters s c (StateCb g) ∈ trace b → small_group g).

(** A method keeps a property of the board. *)
Definition keeps {A} (P : board → Prop) (m : M A) : Prop :=
  ∀ b, P b → P (exec m b).

(** ** Scenarios *)

(** The board with ten groups of one input and one output each, after one
    poll of the tenth group. *)
Definition ten_groups : board :=
  run ([Connected 0 10]
       ++ ((λ i, Responded (CapabilityCb i) (Success [257; 0])) <$> seq 0 10)
       ++ [PollStates;
           Responded (StateCb (Group 10 (Num 1) (Num 1) (Num 0) (Num 0) (Num 0)))
                     (Success [0; 0])])
      new_board.

(** ** The older revision, continued *)

(** The methods of the older revision that work on point ids. *)
Module LegacyBoard.

(** [get(id)] *)
Definition get (id : string) : M (option number) :=
  λ b, (Ok (state b !! id), b).

(** [set(id, value)]: the id is not validated and the write not verified. *)
Definition set (id : string) (value : bool) : M unit :=
  let coilId := coil_address id in
  effectful (WriteCoil coilId value).

(** The success branch of the callback of a read issued by [update]. *)
Definition stored (group : Legacy.group) (data : list N) : M unit :=
  Legacy.store ("DI" +:+ pretty (Legacy.g_id group)) (data !! 0%nat) (Legacy.g_di group) ;>
  Legacy.store ("DO" +:+ pretty (Legacy.g_id group)) (data !! 1%nat) (Legacy.g_do group).

End LegacyBoard.

(** ** Further observations *)

(** The body of the loop of [updateState] over the groups [gs]. *)
Definition state_read (gs : list (option group)) (i : nat) : M unit :=
  match mjoin (gs !! i) with
  | None => throw TypeError
  | Some group =>
      let start := ((Z.of_nat (g_id group) - 1) * 100)%Z in
      effectful (ReadHoldingRegisters (Some start) (Num 2) (StateCb group))
  end.

(** The read [updateState] issues for a group. *)
Definition state_request (group : group) : effect :=
  ReadHoldingRegisters (Some ((Z.of_nat (g_id group) - 1) * 100)%Z) (Num 2) (StateCb group).

(** The read [updateCount] issues for the group in slot [i]. *)
Definition count_request (i : nat) (group : group) : effect :=
  ReadHoldingRegisters (countStart !! i) (times (g_di group) 2) (CountCb group).

(** The read the constructor issues for slot [i]. *)
Definition capability_request (i : nat) : effect :=
  ReadHoldingRegisters (Some (1001 + Z.of_nat i * 100)%Z) (Num 2) (CapabilityCb i).

(** The writes a pending timer can still lead to. *)
Definition weight (t : timer * N) : nat :=
  match t.1 with
  | VerifyCb _ _ retries => 5 - retries
  end.

(** The writes the pending timers of a board can still lead to. *)
Definition pending_writes (b : board) : nat := sum_list_with weight (timers b).

(** The number of calls of [set] by a consumer among the events. *)
Fixpoint set_points (es : list event) : nat :=
  match es with
  | [] => 0
  | SetPoint _ _ :: es => S (set_points es)
  | _ :: es => set_points es
  end.

(** The notification [storeState] sends for index [i], if any, on the cache
    [st]. *)
Definition announced (st : gmap string number) (prefix : string) (value : option N)
    (i : nat) : option (string * string * string) :=
  match st !! key prefix i with
  | Some cur =>
      if strict_neq cur (decoded value i)
      then Some ("update", key prefix i, toString (decoded value i))
      else None
  | None => None
  end.

(** The timers, coil writes and timer delays of a board are the given ones. *)
Definition silent (T : list (timer * N)) (W : list (option Z * bool)) (D : list N)
    (b : board) : Prop :=
  timers b = T ∧ coil_writes (trace b) = W ∧ timeouts (trace b) = D.

(** The coil writes issued and those the pending timers can still lead to
    are within six per call of [set] by a consumer, [n] calls so far; every
    pending timer has retries left; every delay asked for is one of the
    five. *)
Definition write_budget (n : nat) (b : board) : Prop :=
  (length (coil_writes (trace b)) + pending_writes b ≤ 6 * n)%nat ∧
  Forall (λ t, 1 ≤ weight t)%nat (timers b) ∧
  Forall (λ d, d ∈ [100; 200; 300; 400; 500]) (timeouts (trace b)).

(** The ids the poll engine files states under: DI<group>.<index> and
    DO<group>.<index>, group and index in decimal. *)
Definition point_id (id : string) : Prop :=
  ∃ (p : string) (g n : nat),
    (p = "DI" ∨ p = "DO") ∧ id = p +:+ pretty g +:+ "." +:+ pretty n.

(** Every id in the state cache is a point id. *)
Definition keys_shaped (b : board) : Prop :=
  ∀ id, is_Some (state b !! id) → point_id id.

(** * Properties *)

(** ** Examples *)

Example dec2bin_5 : dec2bin (Some 5) = "0000000000000101".
Proof. reflexivity. Qed.
Example dec2bin_65535 : dec2bin (Some 65535) = "1111111111111111".
Proof. reflexivity. Qed.
Example dec2bin_undefined : dec2bin None = "0000000000000NaN".
Proof. reflexivity. Qed.
Example parseInt_undefined : parseInt 10 None = NaN.
Proof. reflexivity. Qed.
Example split_id : split "." "DO1.12" = ["DO1"; "12"].
Proof. reflexivity. Qed.
Example capability_0x0804 :
  capability 0 [2052; 4660] = Group 1 (Num 8) (Num 4) (Num 2) (Num 52) (Num 1).
Proof. reflexivity. Qed.

Example coil_DO1_1 : coil_address "DO1.1" = Some 0%Z.
Proof. reflexivity. Qed.
Example coil_DO2_12 : coil_address "local-DO2.12" = Some 111%Z.
Proof. reflexivity. Qed.
Example coil_DO10_1 : coil_address "DO10.1" = Some (-100)%Z.
Proof. reflexivity. Qed.

Example poll_example :
  let b := exec (state_cb (Group 1 (Num 8) (Num 8) (Num 0) (Num 0) (Num 0))
                          (Success [5; 0])) new_board in
  state b !! "DI1.1" = Some (Num 1) ∧ state b !! "DI1.2" = Some (Num 0) ∧
  state b !! "DI1.3" = Some (Num 1) ∧ state b !! "DI1.8" = Some (Num 0) ∧
  state b !! "DO1.1" = Some (Num 0) ∧ state b !! "DI1.9" = None.
Proof. vm_compute. done. Qed.

(** ** Strings as character lists *)

Lemma chars_unchars l : chars (unchars l) = l.
Proof. apply String.list_ascii_of_string_of_list_ascii. Qed.

Lemma unchars_chars s : unchars (chars s) = s.
Proof. apply String.string_of_list_ascii_of_string. Qed.

Lemma chars_app s t : chars (s +:+ t) = chars s ++ chars t.
Proof. induction s as [|c s IH]; [done|]. cbn. by rewrite <-IH. Qed.

Lemma string_app_assoc s t u : (s +:+ t) +:+ u = s +:+ t +:+ u.
Proof.
  by rewrite <-(unchars_chars (_ +:+ _ +:+ _)), <-(unchars_chars ((_ +:+ _) +:+ _)),
    !chars_app, app_assoc.
Qed.

Lemma unchars_app l k : unchars (l ++ k) = unchars l +:+ unchars k.
Proof. by rewrite <-(unchars_chars (_ +:+ _)), chars_app, !chars_unchars. Qed.

(** ** Bits of a register word *)

Lemma chars_pos_toString2 p acc :
  chars (pos_toString2 p acc) = reverse (lsb_digits p) ++ chars acc.
Proof.
  revert acc. induction p as [p IH|p IH|]; intros acc; cbn [pos_toString2 lsb_digits].
  - rewrite IH, reverse_cons, <-app_assoc. done.
  - rewrite IH, reverse_cons, <-app_assoc. done.
  - done.
Qed.

Lemma chars_toString2 n : chars (toString2 n) = reverse (lsb n).
Proof.
  destruct n as [|p]; [done|]. cbn [toString2 lsb].
  by rewrite chars_pos_toString2, app_nil_r.
Qed.

Lemma bit_0_r i : bit 0 i = false.
Proof. apply N.bits_0. Qed.

Lemma bit_xO p i : bit (Npos p~0) (S i) = bit (Npos p) i.
Proof.
  unfold bit. rewrite Nat2N.inj_succ.
  change (N.pos p~0) with (2 * N.pos p). apply N.testbit_even_succ. lia.
Qed.

Lemma bit_xI p i : bit (Npos p~1) (S i) = bit (Npos p) i.
Proof.
  unfold bit. rewrite Nat2N.inj_succ.
  change (N.pos p~1) with (2 * N.pos p + 1). apply N.testbit_odd_succ. lia.
Qed.

Lemma lsb_digits_lookup p i k :
  (i < length (lsb_digits p) + k)%nat →
  (lsb_digits p ++ replicate k "0"%char) !! i = Some (bitchar (bit (Npos p) i)).
Proof.
  revert i. induction p as [p IH|p IH|]; intros i Hi; cbn [lsb_digits length] in *.
  - destruct i as [|i]; [done|]. rewrite bit_xI. apply IH. lia.
  - destruct i as [|i]; [done|]. rewrite bit_xO. apply IH. lia.
  - destruct i as [|i]; [done|].
    change (replicate k "0"%char !! i = Some (bitchar (bit 1 (S i)))).
    rewrite lookup_replicate_2 by lia.
    unfold bit. rewrite Nat2N.inj_succ.
    change 1 with (2 * 0 + 1) at 1. rewrite N.testbit_odd_succ by lia.
    by rewrite N.bits_0.
Qed.

Lemma lsb_lookup n i k :
  (i < length (lsb n) + k)%nat →
  (lsb n ++ replicate k "0"%char) !! i = Some (bitchar (bit n i)).
Proof.
  destruct n as [|p]; [|apply lsb_digits_lookup].
  cbn [lsb length]. intros Hi. rewrite bit_0_r.
  destruct i as [|i]; [done|].
  change (replicate k "0"%char !! i = Some "0"%char).
  apply lookup_replicate_2. lia.
Qed.

Lemma lsb_nonempty n : (0 < length (lsb n))%nat.
Proof. destruct n as [|[]]; cbn; lia. Qed.

(** [dec2bin] lists the sixteen low bits of the word, most significant first. *)
Lemma reverse_chars_dec2bin n :
  reverse (chars (dec2bin (Some n))) = (λ i, bitchar (bit n i)) <$> seq 0 16.
Proof.
  unfold dec2bin, slice_end.
  rewrite chars_unchars, chars_app, chars_toString2.
  rewrite reverse_drop.
  replace (length _ - (length _ - 16))%nat with 16%nat
    by (rewrite length_app, length_reverse; cbn; lia).
  rewrite reverse_app, reverse_involutive.
  change (reverse (chars "0000000000000000")) with (replicate 16 "0"%char).
  apply list_eq. intros i. rewrite list_lookup_fmap.
  destruct (decide (i < 16)%nat) as [Hi|Hi].
  - rewrite lookup_take_lt, lsb_lookup, lookup_seq_lt by lia. done.
  - rewrite lookup_take_ge, lookup_seq_ge by lia. done.
Qed.

Lemma chars_dec2bin n :
  chars (dec2bin (Some n)) = (λ i, bitchar (bit n i)) <$> reverse (seq 0 16).
Proof.
  rewrite fmap_reverse, <-reverse_chars_dec2bin. by rewrite reverse_involutive.
Qed.

(** The array decoded by [storeState]: element [i] is bit [i] of the word. *)
Lemma decoded_lookup n i :
  reverse (split_chars (dec2bin (Some n))) !! i =
    if decide (i < 16)%nat then Some (String (bitchar (bit n i)) "") else None.
Proof.
  unfold split_chars. rewrite <-fmap_reverse, reverse_chars_dec2bin.
  rewrite <-list_fmap_compose, list_lookup_fmap.
  case_decide.
  - by rewrite lookup_seq_lt by lia.
  - by rewrite lookup_seq_ge by lia.
Qed.

Lemma parseInt_bitchar b : parseInt 10 (Some (String (bitchar b) "")) = Num (N.b2n b).
Proof. by destruct b. Qed.

(** The value [storeState] computes for index [i]. *)
Lemma decoded_value n i :
  parseInt 10 (reverse (split_chars (dec2bin (Some n))) !! i) =
    if decide (i < 16)%nat then Num (N.b2n (bit n i)) else NaN.
Proof.
  rewrite decoded_lookup. case_decide; [apply parseInt_bitchar|done].
Qed.

(** ** Running methods *)

Lemma exec_bind {A B} (m : M A) (k : A → M B) b :
  exec (bind m k) b =
    match (m b).1 with
    | Ok a => exec (k a) (exec m b)
    | Throw _ => exec m b
    end.
Proof. unfold exec, bind. by destruct (m b) as [[a|e] b']. Qed.

Lemma result_bind {A B} (m : M A) (k : A → M B) b :
  (bind m k b).1 =
    match (m b).1 with
    | Ok a => (k a (exec m b)).1
    | Throw e => Throw e
    end.
Proof. unfold exec, bind. by destruct (m b) as [[a|e] b']. Qed.

(** A property kept by every iteration is kept by the loop, whether or not
    an iteration throws. *)
Lemma for_each_invariant {A} (P : board → Prop) (l : list A) body b :
  P b →
  (∀ x b, x ∈ l → P b → P (exec (body x) b)) →
  P (exec (for_each l body) b).
Proof.
  revert b. induction l as [|x l IH]; intros b Hb Hbody; [done|].
  cbn [for_each]. rewrite exec_bind.
  assert (P (exec (body x) b)) by (apply Hbody; [left|done]).
  destruct (body x b).1; [|done].
  apply IH; [done|]. intros y b' Hy. apply Hbody. by right.
Qed.

(** A loop whose iterations all return returns. *)
Lemma for_each_returns {A} (l : list A) body b :
  (∀ x b, x ∈ l → (body x b).1 = Ok tt) →
  (for_each l body b).1 = Ok tt.
Proof.
  revert b. induction l as [|x l IH]; intros b Hbody; [done|].
  cbn [for_each]. rewrite result_bind, Hbody by left.
  apply IH. intros y b' Hy. apply Hbody. by right.
Qed.

(** Two loops over the same list whose bodies keep a relation keep it. *)
Lemma for_each_related {A} (R : board → board → Prop) (l : list A) body1 body2 b1 b2 :
  R b1 b2 →
  (∀ x b1 b2, x ∈ l → R b1 b2 →
     (body1 x b1).1 = Ok tt ∧ (body2 x b2).1 = Ok tt ∧
     R (exec (body1 x) b1) (exec (body2 x) b2)) →
  R (exec (for_each l body1) b1) (exec (for_each l body2) b2).
Proof.
  revert b1 b2. induction l as [|x l IH]; intros b1 b2 HR Hbody; [done|].
  cbn [for_each]. rewrite !exec_bind.
  destruct (Hbody x b1 b2) as (-> & -> & HR'); [left|done|].
  apply IH; [done|]. intros y c1 c2 Hy. apply Hbody. by right.
Qed.

(** ** The state store *)

Lemma key_inj prefix i j : key prefix i = key prefix j → i = j.
Proof.
  unfold key. intros H.
  apply (inj (String.app prefix)), (inj (String.app ".")), (inj pretty) in H.
  lia.
Qed.

Lemma differs_false cur v : differs cur v = false → cur = Some v.
Proof.
  destruct cur as [[x|]|], v as [y|]; try done. cbn.
  intros H%negb_false_iff%N.eqb_eq. by subst.
Qed.

Lemma differs_Num cur n : differs cur (Num n) = bool_decide (cur ≠ Some (Num n)).
Proof.
  destruct cur as [[x|]|]; cbn; try done.
  destruct (N.eqb_spec x n) as [->|Hne]; cbn.
  - by rewrite bool_decide_eq_false_2 by (intros H; by apply H).
  - rewrite bool_decide_eq_true_2; [done|]. congruence.
Qed.

Lemma update_entry_returns id v b : (update_entry id v b).1 = Ok tt.
Proof.
  unfold update_entry, bind, getState.
  destruct (differs _ _); [|done]. cbn. by case_bool_decide.
Qed.

Lemma update_entry_state id v b :
  state (exec (update_entry id v) b) = <[id := v]> (state b).
Proof.
  unfold exec, update_entry, bind, getState.
  destruct (differs _ _) eqn:Hd.
  - cbn. by case_bool_decide.
  - cbn. symmetry. apply insert_id. by apply differs_false.
Qed.

Lemma update_entry_frame id v b :
  counter (exec (update_entry id v) b) = counter b ∧
  groups (exec (update_entry id v) b) = groups b ∧
  timers (exec (update_entry id v) b) = timers b.
Proof.
  unfold exec, update_entry, bind, getState.
  destruct (differs _ _); [|done]. cbn. by case_bool_decide.
Qed.

Lemma storeState_returns prefix value len b :
  (storeState prefix value len b).1 = Ok tt.
Proof.
  apply for_each_returns. intros. apply update_entry_returns.
Qed.

Lemma for_each_update_state prefix value l b :
  state (exec (for_each l (λ i, update_entry (key prefix i) (decoded value i))) b)
  = foldl (λ st i, <[key prefix i := decoded value i]> st) (state b) l.
Proof.
  revert b. induction l as [|i l IH]; intros b; [done|].
  cbn [for_each foldl]. rewrite exec_bind, update_entry_returns, IH.
  by rewrite update_entry_state.
Qed.

Lemma storeState_state prefix value len b :
  state (exec (storeState prefix value len) b)
  = foldl (λ st i, <[key prefix i := decoded value i]> st) (state b) (seq 0 (upto len)).
Proof. apply for_each_update_state. Qed.

Lemma foldl_insert_lookup_ne (f : nat → string) (g : nat → number) l
    (st : gmap string number) k :
  (∀ i, i ∈ l → f i ≠ k) →
  foldl (λ st i, <[f i := g i]> st) st l !! k = st !! k.
Proof.
  revert st. induction l as [|i l IH]; intros st Hk; [done|].
  cbn [foldl]. rewrite IH by (intros j Hj; apply Hk; by right).
  apply lookup_insert_ne, Hk. by left.
Qed.

Lemma foldl_insert_lookup (f : nat → string) (g : nat → number) l
    (st : gmap string number) i :
  Inj (=) (=) f → i ∈ l →
  foldl (λ st i, <[f i := g i]> st) st l !! f i = Some (g i).
Proof.
  intros Hf. revert st. induction l as [|j l IH]; intros st Hi.
  { by apply elem_of_nil in Hi. }
  cbn [foldl]. destruct (decide (i ∈ l)) as [Hl|Hl]; [by apply IH|].
  apply elem_of_cons in Hi as [->|?]; [|done].
  rewrite foldl_insert_lookup_ne.
  - apply lookup_insert_eq.
  - intros i Hi Heq. apply Hf in Heq. by subst.
Qed.

(** After [storeState], index [i] below the length holds the decoded value,
    and keys of no index below the length are as before. *)
Lemma storeState_lookup prefix value len b i :
  (i < upto len)%nat →
  state (exec (storeState prefix value len) b) !! key prefix i = Some (decoded value i).
Proof.
  intros Hi. rewrite storeState_state.
  apply (foldl_insert_lookup (key prefix) (decoded value)).
  - intros x y. apply key_inj.
  - apply elem_of_seq. lia.
Qed.

Lemma storeState_lookup_other prefix value len b k :
  (∀ i, (i < upto len)%nat → key prefix i ≠ k) →
  state (exec (storeState prefix value len) b) !! k = state b !! k.
Proof.
  intros Hk. rewrite storeState_state.
  apply (foldl_insert_lookup_ne (key prefix) (decoded value)).
  intros i Hi%elem_of_seq. apply Hk. lia.
Qed.

Lemma storeState_frame prefix value len b :
  counter (exec (storeState prefix value len) b) = counter b ∧
  groups (exec (storeState prefix value len) b) = groups b ∧
  timers (exec (storeState prefix value len) b) = timers b.
Proof.
  unfold storeState, for_loop.
  apply (for_each_invariant (λ b', counter b' = counter b ∧ groups b' = groups b
                                   ∧ timers b' = timers b)); [done|].
  intros i b' _ (Hc & Hg & Ht).
  destruct (update_entry_frame (prefix +:+ "." +:+ pretty (i + 1)%nat)
    (parseInt 10 (reverse (split_chars (dec2bin value)) !! i)) b') as (-> & -> & ->).
  done.
Qed.

(** With [NaN] the comparison [!==] always succeeds: an entry holding [NaN]
    is written and announced again at every call. *)
Lemma update_entry_NaN id cur b :
  state b !! id = Some cur →
  update_entry id NaN b =
    (Ok tt, Board (<[id := NaN]> (state b)) (counter b) (groups b) (timers b)
                  (trace b ++ [Store id NaN; Emit "update" id "NaN"])).
Proof.
  intros Hcur. unfold update_entry, bind, getState. rewrite Hcur.
  replace (differs (Some cur) NaN) with true by by destruct cur.
  rewrite (bool_decide_eq_true_2 (Some cur ≠ None)) by done.
  unfold effectful. cbn. by rewrite <-app_assoc.
Qed.

(** C4 (as amended). The conditional update of the state store, for a
    point id (any id that names no inherited member of the cache) and a
    value that is a number, [NaN] excluded: an absent id is stored without a
    notification; a present id with a different value is stored and
    announced once, with the id and the new value; a present id with the
    same value is neither stored nor announced, so that repeating a call
    does nothing. *)
Theorem update_entry_conditional (id : string) (n : N) (b : board) :
  id ∉ Object_prototype → n < 2 ^ 53 →
  (state b !! id = None →
   update_entry id (Num n) b =
     (Ok tt, Board (<[id := Num n]> (state b)) (counter b) (groups b) (timers b)
                   (trace b ++ [Store id (Num n)]))) ∧
  (∀ cur, state b !! id = Some cur → cur ≠ Num n →
   update_entry id (Num n) b =
     (Ok tt, Board (<[id := Num n]> (state b)) (counter b) (groups b) (timers b)
                   (trace b ++ [Store id (Num n); Emit "update" id (pretty n)]))) ∧
  (state b !! id = Some (Num n) → update_entry id (Num n) b = (Ok tt, b)) ∧
  update_entry id (Num n) (exec (update_entry id (Num n)) b) =
    (Ok tt, exec (update_entry id (Num n)) b).
Proof.
  intros _ _.
  assert (Hsame : ∀ b', state b' !! id = Some (Num n) →
                        update_entry id (Num n) b' = (Ok tt, b')).
  { intros b' Hb'. unfold update_entry, bind, getState.
    rewrite differs_Num, Hb'. by rewrite bool_decide_eq_false_2 by (intros H; by apply H). }
  split_and!.
  - intros Hnone. unfold update_entry, bind, getState. by rewrite Hnone.
  - intros cur Hcur Hne. unfold update_entry, bind, getState.
    rewrite differs_Num, Hcur.
    rewrite bool_decide_eq_true_2 by congruence.
    rewrite (bool_decide_eq_true_2 (Some cur ≠ None)) by done.
    unfold effectful. cbn. by rewrite <-app_assoc.
  - apply Hsame.
  - apply Hsame. rewrite update_entry_state. apply lookup_insert_eq.
Qed.

Lemma update_entry_conditional_witness :
  let b := exec (update_entry "DO1.1" (Num 0)) new_board in
  state new_board !! "DO1.1" = None ∧
  state b !! "DO1.1" = Some (Num 0) ∧
  trace b = [Connect; Store "DO1.1" (Num 0)] ∧
  trace (exec (update_entry "DO1.1" (Num 1)) b)
    = [Connect; Store "DO1.1" (Num 0); Store "DO1.1" (Num 1); Emit "update" "DO1.1" "1"] ∧
  update_entry "DO1.1" (Num 0) b = (Ok tt, b).
Proof.
  intros b.
  assert (Hown : "DO1.1" ∉ Object_prototype).
  { apply (bool_decide_unpack _). vm_compute. exact I. }
  assert (H0 : 0 < 2 ^ 53) by reflexivity.
  assert (H1 : 1 < 2 ^ 53) by reflexivity.
  destruct (update_entry_conditional "DO1.1" 0 new_board Hown H0) as (Habsent & _ & _ & _).
  destruct (update_entry_conditional "DO1.1" 1 b Hown H1) as (_ & Hdiff & _ & _).
  destruct (update_entry_conditional "DO1.1" 0 b Hown H0) as (_ & _ & Hsame & _).
  assert (Hb : state b !! "DO1.1" = Some (Num 0)) by (vm_compute; reflexivity).
  split_and!.
  - reflexivity.
  - exact Hb.
  - unfold b, exec. rewrite Habsent by reflexivity. reflexivity.
  - unfold exec at 1. rewrite (Hdiff (Num 0) Hb) by discriminate.
    vm_compute. reflexivity.
  - apply Hsame, Hb.
Defined.

(** C4 as stated fails, for every value: the value the loop decodes past
    the sixteenth bit is [NaN], and a second call with that same value
    announces the point again. *)
Lemma update_entry_NaN_counterexample :
  ¬ (∀ (id : string) (value : number) (b : board),
       id ∉ Object_prototype →
       notifications (trace (exec (update_entry id value) (exec (update_entry id value) b)))
       = notifications (trace (exec (update_entry id value) b))).
Proof.
  intros H.
  assert (Hown : "DI1.17" ∉ Object_prototype).
  { apply (bool_decide_unpack _). vm_compute. exact I. }
  specialize (H "DI1.17" (decoded (Some 0) 16) new_board Hown).
  vm_compute in H. discriminate H.
Qed.

(** The same on a run: a group of seventeen inputs polled twice with the
    same word is announced at the second poll. *)
Example storeState_NaN_twice :
  let b := exec (storeState "DI1" (Some 0) (Num 17)) new_board in
  notifications (trace b) = [] ∧
  notifications (trace (exec (storeState "DI1" (Some 0) (Num 17)) b))
    = [("update", "DI1.17", "NaN")].
Proof. vm_compute. done. Qed.

(** ** The decoded bits *)

Lemma b2n_bit v i : N.b2n (bit v i) = (v / 2 ^ N.of_nat i) mod 2.
Proof. apply N.testbit_spec'. Qed.

(** C5. For a 16-bit register value [v], the array [storeState] decodes
    has sixteen elements, element 0 is [v & 1], element 15 is the most
    significant bit of [v], and element [i] is bit [i] of [v] and is filed
    under point index [i + 1]. *)
Theorem storeState_decodes_bits (prefix : string) (v : N) (len : number) (b : board) :
  v < 65536 →
  let arr := reverse (split_chars (dec2bin (Some v))) in
  length arr = 16%nat ∧
  parseInt 10 (arr !! 0%nat) = Num (N.land v 1) ∧
  parseInt 10 (arr !! 15%nat) = Num (N.shiftr v 15) ∧
  ∀ i, (i < 16)%nat →
    parseInt 10 (arr !! i) = Num (N.b2n (N.testbit v (N.of_nat i))) ∧
    ((i < upto len)%nat →
     state (exec (storeState prefix (Some v) len) b) !! (prefix +:+ "." +:+ pretty (i + 1)%nat)
       = Some (Num (N.b2n (N.testbit v (N.of_nat i))))).
Proof.
  intros Hv arr. split_and!.
  - unfold arr, split_chars.
    by rewrite length_reverse, length_fmap, <-length_reverse, reverse_chars_dec2bin.
  - unfold arr. rewrite decoded_value, decide_True by lia.
    f_equal. rewrite b2n_bit. change (N.land v 1) with (N.land v (N.ones 1)).
    rewrite N.land_ones. cbn. by rewrite N.div_1_r.
  - unfold arr. rewrite decoded_value, decide_True by lia.
    f_equal. rewrite b2n_bit, N.shiftr_div_pow2.
    apply N.mod_small. change (N.of_nat 15) with 15.
    apply N.Div0.div_lt_upper_bound. exact Hv.
  - intros i Hi. split.
    + unfold arr. by rewrite decoded_value, decide_True by lia.
    + intros Hlen. fold (key prefix i). rewrite storeState_lookup by done.
      unfold decoded. by rewrite decoded_value, decide_True by lia.
Qed.

Lemma storeState_decodes_bits_witness :
  state (exec (storeState "DI1" (Some 5) (Num 16)) new_board) !! "DI1.3" = Some (Num 1).
Proof.
  assert (Hv : 5 < 65536) by reflexivity.
  destruct (storeState_decodes_bits "DI1" 5 (Num 16) new_board Hv) as (_ & _ & _ & Hbits).
  destruct (Hbits 2%nat) as [_ Hstored]; [lia|].
  apply Hstored. cbn. lia.
Defined.

(** ** The two revisions of the store *)

Lemma notifications_app t1 t2 :
  notifications (t1 ++ t2) = notifications t1 ++ notifications t2.
Proof. apply omap_app. Qed.

Lemma update_entry_revisions id v b1 b2 :
  state b1 = state b2 →
  notifications (trace b1) = notifications (trace b2) →
  (Legacy.update_entry id v b1).1 = Ok tt ∧ (update_entry id v b2).1 = Ok tt ∧
  state (exec (Legacy.update_entry id v) b1) = state (exec (update_entry id v) b2) ∧
  notifications (trace (exec (Legacy.update_entry id v) b1))
    = notifications (trace (exec (update_entry id v) b2)).
Proof.
  intros Hst Hn.
  unfold exec, Legacy.update_entry, update_entry, bind, getState. rewrite Hst.
  destruct (differs _ _); [|done].
  case_bool_decide; cbn; rewrite ?notifications_app, ?Hst, ?Hn; cbn;
    by rewrite ?app_nil_r.
Qed.

(** C10. From the same board, [store] of the older revision and
    [storeState] return alike, leave the same cache and have sent the same
    notifications, in the same order and with the same payloads. *)
Theorem store_storeState_equivalent (prefix : string) (value : option N)
    (length : number) (b : board) :
  (Legacy.store prefix value length b).1 = (storeState prefix value length b).1 ∧
  state (exec (Legacy.store prefix value length) b)
    = state (exec (storeState prefix value length) b) ∧
  notifications (trace (exec (Legacy.store prefix value length) b))
    = notifications (trace (exec (storeState prefix value length) b)).
Proof.
  split.
  - rewrite storeState_returns. apply for_each_returns. intros i b' _.
    by destruct (update_entry_revisions
      (prefix +:+ "." +:+ pretty (i + 1)%nat)
      (parseInt 10 (reverse (split_chars (dec2bin value)) !! i)) b' b'
      eq_refl eq_refl) as (? & _).
  - unfold Legacy.store, storeState, for_loop.
    apply (for_each_related
      (λ b1 b2, state b1 = state b2
                ∧ notifications (trace b1) = notifications (trace b2))); [done|].
    intros i b1 b2 _ [Hst Hn].
    destruct (update_entry_revisions
      (prefix +:+ "." +:+ pretty (i + 1)%nat)
      (parseInt 10 (reverse (split_chars (dec2bin value)) !! i)) b1 b2 Hst Hn)
      as (? & ? & ? & ?).
    done.
Qed.

(** The two revisions differ in the order of the write and the notification,
    which only a listener reading the cache can tell. *)
Example store_trace_order :
  let b := exec (storeState "DO1" (Some 0) (Num 1)) new_board in
  trace (exec (Legacy.store "DO1" (Some 1) (Num 1)) b)
    = trace b ++ [Emit "update" "DO1.1" "1"; Store "DO1.1" (Num 1)] ∧
  trace (exec (storeState "DO1" (Some 1) (Num 1)) b)
    = trace b ++ [Store "DO1.1" (Num 1); Emit "update" "DO1.1" "1"].
Proof. vm_compute. done. Qed.

(** ** Transport errors *)

(** An array has no element at index [-1]: the lookup key is always [NaN]
    and the table is never hit. *)
Lemma errdesc_none err : errdesc err = None.
Proof. unfold errdesc, index. cbn. by vm_compute. Qed.

Lemma report_error_raw err b :
  report_error err b =
    (Ok tt, Board (state b) (counter b) (groups b) (timers b)
                  (trace b ++ [LogError (Raw err)])).
Proof. unfold report_error. by rewrite errdesc_none. Qed.

(** C6. The read callbacks report every transport error raw: the code of
    the message is never found in the table, not even a recognized one. *)
Theorem report_error_never_translates (cb : callback) (err : error) (b : board) :
  exec (run_callback cb (Failure err)) b =
    Board (state b) (counter b) (groups b) (timers b) (trace b ++ [LogError (Raw err)]).
Proof. destruct cb; cbn; unfold exec; by rewrite report_error_raw. Qed.

(** The code 2 is in the table, and an error carrying it is reported raw. *)
Example report_error_code_2 :
  MODUS_ERRNO !! "2" = Some "Illegal Data Address" ∧
  trace (exec (capability_cb 0 (Failure (Error "Modbus exception 2"))) new_board)
    = [Connect; LogError (Raw (Error "Modbus exception 2"))].
Proof. split; vm_compute; reflexivity. Qed.

(** C9. The callback of a state read that failed alters no key of the state
    cache, of whatever group, and no counter. *)
Theorem state_cb_failure_keeps_cache (g : group) (err : error) (b : board) :
  (state_cb g (Failure err) b).1 = Ok tt ∧
  (∀ id, state (exec (state_cb g (Failure err)) b) !! id = state b !! id) ∧
  (∀ id, counter (exec (state_cb g (Failure err)) b) !! id = counter b !! id) ∧
  notifications (trace (exec (state_cb g (Failure err)) b)) = notifications (trace b).
Proof.
  unfold exec. cbn [state_cb]. rewrite report_error_raw. cbn.
  split_and!; try done.
  by rewrite notifications_app, app_nil_r.
Qed.

(** ** Capability discovery *)

Lemma parse_bits_go bs acc :
  parse_digits 2 (unchars (bitchar <$> bs)) (Some acc)
  = Some (foldl (λ a b, 2 * a + N.b2n b) acc bs).
Proof.
  revert acc. induction bs as [|b bs IH]; intros acc; [done|].
  destruct b; cbn; apply IH.
Qed.

(** [parseInt(s, 2)] of a non-empty bit string is the value of its bits. *)
Lemma parseInt_bits b bs :
  parseInt 2 (Some (unchars (bitchar <$> b :: bs))) = Num (bits_value (b :: bs)).
Proof.
  unfold parseInt, bits_value.
  change (default "undefined" (Some ?s)) with s.
  change (unchars (bitchar <$> b :: bs))
    with (String (bitchar b) (unchars (bitchar <$> bs))).
  replace (parse_digits 2 (String (bitchar b) (unchars (bitchar <$> bs))) None)
    with (parse_digits 2 (unchars (bitchar <$> bs)) (Some (N.b2n b)))
    by by destruct b.
  rewrite parse_bits_go. cbn [foldl]. by destruct b.
Qed.

(** The bits [k + m - 1 .. k] of [n], read as a number. *)
Lemma bits_value_field n k m :
  bits_value ((λ i, bit n (k + i)) <$> reverse (seq 0 m)) = (n / 2 ^ N.of_nat k) mod 2 ^ N.of_nat m.
Proof.
  unfold bits_value. revert k. induction m as [|m IH]; intros k.
  { cbn. by rewrite N.mod_1_r. }
  rewrite <-cons_seq, <-fmap_S_seq, reverse_cons, fmap_app, foldl_app.
  rewrite <-fmap_reverse, <-list_fmap_compose.
  erewrite (list_fmap_ext _ (λ i, bit n (S k + i))); [|intros ???; cbn; f_equal; lia].
  rewrite IH. cbn [fmap list_fmap foldl].
  rewrite Nat.add_0_r, b2n_bit.
  rewrite !Nat2N.inj_succ, !N.pow_succ_r'.
  replace (n / (2 * 2 ^ N.of_nat k)) with (n / 2 ^ N.of_nat k / 2)
    by (rewrite N.Div0.div_div; f_equal; lia).
  rewrite (N.Div0.mod_mul_r _ 2). lia.
Qed.

Lemma slice_dec2bin a b n :
  (a ≤ b ≤ 16)%nat →
  slice a b (dec2bin (Some n))
  = unchars (bitchar <$> ((λ i, bit n ((16 - b) + i)) <$> reverse (seq 0 (b - a)))).
Proof.
  intros Hab. unfold slice. rewrite chars_dec2bin. f_equal.
  apply list_eq. intros i. rewrite !list_lookup_fmap.
  destruct (decide (i < b - a)%nat) as [Hi|Hi].
  - rewrite lookup_take_lt, lookup_drop, list_lookup_fmap by lia.
    rewrite !reverse_lookup by (rewrite length_seq; lia).
    rewrite !length_seq, !lookup_seq_lt by lia. cbn. do 3 f_equal. lia.
  - rewrite lookup_take_ge by lia.
    rewrite (proj2 (lookup_ge_None (reverse (seq 0 (b - a))) i)); [done|].
    rewrite length_reverse, length_seq. lia.
Qed.

(** A field of a capability word: the bits from [16 - b] up to [16 - a]. *)
Lemma parseInt_slice a b n :
  (a < b ≤ 16)%nat →
  parseInt 2 (Some (slice a b (dec2bin (Some n))))
  = Num ((n / 2 ^ N.of_nat (16 - b)) mod 2 ^ N.of_nat (b - a)).
Proof.
  intros Hab. rewrite slice_dec2bin by lia.
  destruct (_ <$> reverse (seq 0 (b - a))) as [|x l] eqn:Hl.
  { apply (f_equal length) in Hl.
    rewrite length_fmap, length_reverse, length_seq in Hl. cbn in Hl. lia. }
  by rewrite parseInt_bits, <-Hl, bits_value_field.
Qed.

Lemma array_set_lookup {A} i (x : A) a : array_set i x a !! i = Some (Some x).
Proof.
  unfold array_set. case_decide.
  - by apply list_lookup_insert_eq.
  - rewrite lookup_app_r by lia.
    rewrite lookup_app_r by (rewrite length_replicate; lia).
    rewrite length_replicate. by rewrite Nat.sub_diag.
Qed.

Lemma array_set_lookup_ne {A} i j (x : A) a :
  i ≠ j → mjoin (array_set i x a !! j) = mjoin (a !! j).
Proof.
  intros Hij. unfold array_set. case_decide.
  - by rewrite list_lookup_insert_ne.
  - destruct (decide (j < length a)%nat).
    { by rewrite lookup_app_l by lia. }
    rewrite (proj2 (lookup_ge_None a j)) by lia.
    rewrite lookup_app_r by lia.
    destruct (decide (j - length a < i - length a)%nat).
    + rewrite lookup_app_l by (rewrite length_replicate; lia).
      by rewrite lookup_replicate_2 by lia.
    + rewrite lookup_app_r by (rewrite length_replicate; lia).
      rewrite length_replicate.
      destruct (j - length a - (i - length a))%nat as [|k] eqn:Hk; [lia|done].
Qed.

Lemma field_high n k m :
  n < 2 ^ (N.of_nat k + N.of_nat m) →
  (n / 2 ^ N.of_nat k) mod 2 ^ N.of_nat m = N.shiftr n (N.of_nat k).
Proof.
  intros Hn. rewrite N.shiftr_div_pow2. apply N.mod_small.
  apply N.Div0.div_lt_upper_bound. by rewrite <-N.pow_add_r.
Qed.

Lemma field_low n k m :
  (n / 2 ^ N.of_nat k) mod 2 ^ N.of_nat m
  = N.land (N.shiftr n (N.of_nat k)) (N.ones (N.of_nat m)).
Proof. by rewrite N.land_ones, N.shiftr_div_pow2. Qed.

(** C1 (as amended). The capability words are split from the most
    significant end: the digital-input count is bits 8-15 of the first word
    and the digital-output count its bits 0-7; the serial-port count is bits
    12-15 of the second word, the analog-input count its bits 8-11 and the
    analog-output count its bits 0-7 (bit 0 the least significant).  The
    older revision reads the first word in the same way. *)
Theorem capability_fields (i : nat) (w0 w1 : N) (b : board) :
  w0 < 65536 → w1 < 65536 →
  capability i [w0; w1] =
    {| g_id := i + 1;
       g_di := Num (N.shiftr w0 8);
       g_do := Num (N.land w0 255);
       g_ai := Num (N.land (N.shiftr w1 8) 15);
       g_ao := Num (N.land w1 255);
       g_serial := Num (N.shiftr w1 12) |} ∧
  groups (exec (capability_cb i (Success [w0; w1])) b) !! i
    = Some (Some (capability i [w0; w1])) ∧
  Legacy.capability i [w0] =
    {| Legacy.g_id := i + 1;
       Legacy.g_di := Num (N.shiftr w0 8);
       Legacy.g_do := Num (N.land w0 255) |}.
Proof.
  intros H0 H1.
  assert (Hdi : parseInt 2 (Some (slice 0 8 (dec2bin (Some w0)))) = Num (N.shiftr w0 8)).
  { rewrite parseInt_slice by lia. f_equal. by apply (field_high w0 8 8). }
  assert (Hdo : parseInt 2 (Some (slice 8 16 (dec2bin (Some w0)))) = Num (N.land w0 255)).
  { rewrite parseInt_slice by lia. f_equal.
    etrans; [exact (field_low w0 0 8)|]. apply (f_equal2 N.land); [|done].
    apply N.shiftr_0_r. }
  split_and!.
  - unfold capability. cbn [lookup list_lookup]. rewrite Hdi, Hdo. f_equal.
    + rewrite parseInt_slice by lia. f_equal. exact (field_low w1 8 4).
    + rewrite parseInt_slice by lia. f_equal.
      etrans; [exact (field_low w1 0 8)|]. apply (f_equal2 N.land); [|done].
      apply N.shiftr_0_r.
    + rewrite parseInt_slice by lia. f_equal. by apply (field_high w1 12 4).
  - apply array_set_lookup.
  - unfold Legacy.capability. cbn [lookup list_lookup]. by rewrite Hdi, Hdo.
Qed.

Lemma capability_fields_witness :
  capability 0 [2052; 4660] = Group 1 (Num 8) (Num 4) (Num 2) (Num 52) (Num 1).
Proof.
  assert (H0 : 2052 < 65536) by reflexivity.
  assert (H1 : 4660 < 65536) by reflexivity.
  destruct (capability_fields 0 2052 4660 new_board H0 H1) as (Hcap & _ & _).
  rewrite Hcap. reflexivity.
Defined.

(** C1 as stated fails: the word 4 has the value 4 in its bits 0-7, and the
    decoding takes it for the digital-output count, not the digital-input
    count. *)
Lemma capability_low_byte_counterexample :
  ¬ (∀ i w0 w1, w0 < 65536 → w1 < 65536 →
       g_di (capability i [w0; w1]) = Num (N.land w0 255) ∧
       g_do (capability i [w0; w1]) = Num (N.shiftr w0 8) ∧
       g_serial (capability i [w0; w1]) = Num (N.land w1 15) ∧
       g_ai (capability i [w0; w1]) = Num (N.land (N.shiftr w1 4) 15) ∧
       g_ao (capability i [w0; w1]) = Num (N.shiftr w1 8)).
Proof.
  intros H. destruct (H 0%nat 4 0) as (Hdi & _); [reflexivity..|].
  vm_compute in Hdi. discriminate.
Qed.

(** ** The counters *)

Lemma for_each_app {A} (l1 l2 : list A) body b :
  for_each (l1 ++ l2) body b =
    match for_each l1 body b with
    | (Ok _, b') => for_each l2 body b'
    | (Throw e, b') => (Throw e, b')
    end.
Proof.
  revert b. induction l1 as [|x l1 IH]; intros b; [done|].
  cbn [for_each app]. unfold bind.
  destruct (body x b) as [[[]|e] b']; [apply IH|done].
Qed.

Lemma reads_app t1 t2 : reads (t1 ++ t2) = reads t1 ++ reads t2.
Proof. apply omap_app. Qed.

Section updateCount.
Context (gs : list (option group)).

Lemma updateCount_body_grows l b :
  ∃ t, trace (exec (for_each l (count_read gs)) b) = trace b ++ t.
Proof.
  apply (for_each_invariant (λ b', ∃ t, trace b' = trace b ++ t)).
  - exists []. by rewrite app_nil_r.
  - intros i b' _ [t Ht]. unfold count_read, exec.
    destruct (mjoin (gs !! i)); cbn.
    + exists (t ++ [ReadHoldingRegisters (countStart !! i) (times (g_di g) 2) (CountCb g)]).
      by rewrite Ht, app_assoc.
    + by exists t.
Qed.

Lemma updateCount_body_step i g b :
  mjoin (gs !! i) = Some g →
  for_each [i] (count_read gs) b =
    (Ok tt, Board (state b) (counter b) (groups b) (timers b)
                  (trace b ++ [ReadHoldingRegisters (countStart !! i)
                                 (times (g_di g) 2) (CountCb g)])).
Proof. intros Hg. cbn [for_each]. unfold bind, count_read. by rewrite Hg. Qed.

Lemma updateCount_body_prefix i b :
  (∀ k, (k < i)%nat → is_Some (mjoin (gs !! k))) →
  (for_each (seq 0 i) (count_read gs) b).1 = Ok tt ∧
  ∃ r, reads (trace (exec (for_each (seq 0 i) (count_read gs)) b)) = reads (trace b) ++ r
       ∧ length r = i.
Proof.
  induction i as [|i IH]; intros Hgs.
  { split; [done|]. exists []. by rewrite app_nil_r. }
  destruct IH as (Hok & r & Hr & Hlen); [intros; apply Hgs; lia|].
  destruct (Hgs i) as [g Hg]; [lia|].
  rewrite seq_S. unfold exec in *. rewrite for_each_app.
  destruct (for_each (seq 0 i) (count_read gs) b) as [[[]|e] b'] eqn:Hloop; [|done].
  change (0 + i)%nat with i. rewrite (updateCount_body_step i g) by done. cbn.
  split; [done|].
  exists (r ++ [(countStart !! i, times (g_di g) 2, CountCb g)]).
  cbn in Hr. rewrite reads_app, Hr, length_app, Hlen, <-app_assoc. cbn.
  split; [done|lia].
Qed.

Lemma updateCount_body_read i g b :
  (i < length gs)%nat →
  gs !! i = Some (Some g) →
  (∀ k, (k < i)%nat → is_Some (mjoin (gs !! k))) →
  reads (trace (exec (for_each (seq 0 (length gs)) (count_read gs)) b))
    !! (length (reads (trace b)) + i)%nat
  = Some (countStart !! i, times (g_di g) 2, CountCb g).
Proof.
  intros Hi Hg Hgs.
  replace (length gs) with (S i + (length gs - S i))%nat at 1 by lia.
  rewrite seq_app. unfold exec. rewrite for_each_app.
  destruct (updateCount_body_prefix (S i) b) as (Hok & r & Hr & Hlen).
  { intros k Hk. destruct (decide (k = i)) as [->|]; [|apply Hgs; lia].
    rewrite Hg. by eexists. }
  unfold exec in Hr.
  destruct (for_each (seq 0 (S i)) (count_read gs) b) as [[[]|e] b'] eqn:Hloop; [|done].
  assert (Hlast : reads (trace b') !! (length (reads (trace b)) + i)%nat
                  = Some (countStart !! i, times (g_di g) 2, CountCb g)).
  { destruct (updateCount_body_prefix i b) as (Hok' & r' & Hr' & Hlen').
    { intros; apply Hgs; lia. }
    rewrite seq_S in Hloop. rewrite for_each_app in Hloop. unfold exec in Hr'.
    destruct (for_each (seq 0 i) (count_read gs) b) as [[[]|e] b''] eqn:Hloop'; [|done].
    change (0 + i)%nat with i in Hloop.
    rewrite (updateCount_body_step i g) in Hloop by by rewrite Hg.
    injection Hloop as <-. cbn [trace].
    cbn in Hr'. rewrite reads_app, Hr'. cbn.
    rewrite <-app_assoc, lookup_app_r by lia.
    rewrite lookup_app_r by lia.
    by replace (length (reads (trace b)) + i - length (reads (trace b)) - length r')%nat
      with 0%nat by lia. }
  destruct (updateCount_body_grows (seq (0 + S i) (length gs - S i)) b') as [t Ht].
  unfold exec in Ht. rewrite Ht, reads_app.
  apply lookup_app_l_Some, Hlast.
Qed.
End updateCount.

Lemma updateCount_read i g b :
  groups b !! i = Some (Some g) →
  (∀ k, (k < i)%nat → is_Some (mjoin (groups b !! k))) →
  reads (trace (exec updateCount b)) !! (length (reads (trace b)) + i)%nat
  = Some (countStart !! i, times (g_di g) 2, CountCb g).
Proof.
  intros Hg Hgs. apply (updateCount_body_read (groups b)); [|done..].
  by apply lookup_lt_Some in Hg.
Qed.

Lemma for_each_counter (f : nat → string) (v : nat → number) l b :
  (for_each l (λ j, assign_counter (f j) (v j)) b).1 = Ok tt ∧
  counter (exec (for_each l (λ j, assign_counter (f j) (v j))) b)
  = foldl (λ c j, <[f j := v j]> c) (counter b) l ∧
  state (exec (for_each l (λ j, assign_counter (f j) (v j))) b) = state b.
Proof.
  revert b. induction l as [|j l IH]; intros b; [done|].
  cbn [for_each foldl]. unfold exec, bind in *. cbn.
  destruct (IH (Board (state b) (<[f j := v j]> (counter b)) (groups b)
                      (timers b) (trace b))) as (? & ? & ?).
  done.
Qed.

Lemma counter_key_inj (gid : nat) :
  Inj (=) (=) (λ j : nat, "DI" +:+ pretty gid +:+ "." +:+ pretty (j + 1)%nat).
Proof.
  intros x y H.
  apply (inj (String.app "DI")), (inj (String.app (pretty gid))),
        (inj (String.app ".")), (inj pretty) in H.
  lia.
Qed.

(** C7 (as amended). For a discovered group in one of the slots 0, 1, 2, all
    slots before it being discovered as well, [updateCount] reads twice its
    digital-input count of registers, starting at the base address of the
    slot in the table [8, 103, 203]; and for each input [j] below the count
    the read's callback files the sum of the words [2j] and [2j + 1] under
    the key DI<group>.<j+1>. *)
Theorem updateCount_counters (b : board) (i : nat) (g : group) (d : N) :
  (i < 3)%nat →
  groups b !! i = Some (Some g) →
  (∀ k, (k < i)%nat → is_Some (mjoin (groups b !! k))) →
  g_di g = Num d →
  (∃ base, [8; 103; 203]%Z !! i = Some base ∧
     reads (trace (exec updateCount b)) !! (length (reads (trace b)) + i)%nat
     = Some (Some base, Num (d * 2), CountCb g)) ∧
  ∀ (data : list N) (b' : board) (j : nat) (lo hi : N),
    (j < N.to_nat d)%nat →
    data !! (2 * j)%nat = Some lo → data !! (2 * j + 1)%nat = Some hi →
    counter (exec (count_cb g (Success data)) b')
      !! ("DI" +:+ pretty (g_id g) +:+ "." +:+ pretty (j + 1)%nat)
    = Some (Num (lo + hi)).
Proof.
  intros Hi Hg Hgs Hd. split.
  - rewrite (updateCount_read i g) by done. rewrite Hd.
    destruct i as [|[|[|i]]]; [by eexists..|lia].
  - intros data b' j lo hi Hj Hlo Hhi. cbn [count_cb]. rewrite Hd.
    unfold for_loop.
    destruct (for_each_counter
      (λ j, "DI" +:+ pretty (g_id g) +:+ "." +:+ pretty (j + 1)%nat)
      (λ j, plus (data !! (j * 2)%nat) (data !! (j * 2 + 1)%nat))
      (seq 0 (upto (Num d))) b') as (_ & -> & _).
    rewrite (foldl_insert_lookup
      (λ j, "DI" +:+ pretty (g_id g) +:+ "." +:+ pretty (j + 1)%nat)
      (λ j, plus (data !! (j * 2)%nat) (data !! (j * 2 + 1)%nat))).
    + by rewrite (Nat.mul_comm j 2), Hlo, Hhi.
    + apply counter_key_inj.
    + apply elem_of_seq. cbn. lia.
Qed.

Lemma updateCount_counters_witness :
  let b := run [Connected 0 1; Responded (CapabilityCb 0) (Success [1028; 0])] new_board in
  let g := Group 1 (Num 4) (Num 4) (Num 0) (Num 0) (Num 0) in
  groups b = [Some g] ∧
  reads (trace (exec updateCount b)) !! 1%nat = Some (Some 8%Z, Num 8, CountCb g) ∧
  counter (exec (count_cb g (Success [1; 2; 3; 4; 5; 6; 7; 8])) b) !! "DI1.2"
    = Some (Num 7).
Proof.
  intros b g.
  assert (Hg : groups b !! 0%nat = Some (Some g)) by (vm_compute; reflexivity).
  assert (Hgs : ∀ k, (k < 0)%nat → is_Some (mjoin (groups b !! k))) by (intros k Hk; lia).
  assert (Hd : g_di g = Num 4) by reflexivity.
  assert (H0 : (0 < 3)%nat) by lia.
  destruct (updateCount_counters b 0 g 4 H0 Hg Hgs Hd) as [(base & Hbase & Hread) Hsum].
  split_and!.
  - vm_compute. reflexivity.
  - injection Hbase as <-. exact Hread.
  - apply (Hsum [1; 2; 3; 4; 5; 6; 7; 8] b 1%nat 3 4); [cbn; lia|reflexivity..].
Defined.

(** C7 as stated fails: the table has three entries, so on a board with a
    fourth group the read of that group's counters starts at no base
    address of the table. *)
Lemma updateCount_fourth_slot_counterexample :
  ¬ (∀ (b : board) (i : nat) (g : group),
       groups b !! i = Some (Some g) →
       (∀ k, (k < i)%nat → is_Some (mjoin (groups b !! k))) →
       ∃ base : Z,
         reads (trace (exec updateCount b)) !! (length (reads (trace b)) + i)%nat
         = Some (Some base, times (g_di g) 2, CountCb g)).
Proof.
  intros H.
  pose (b := run [Connected 0 4;
                  Responded (CapabilityCb 0) (Success [1028; 0]);
                  Responded (CapabilityCb 1) (Success [1028; 0]);
                  Responded (CapabilityCb 2) (Success [1028; 0]);
                  Responded (CapabilityCb 3) (Success [1028; 0])] new_board).
  destruct (H b 3%nat (Group 4 (Num 4) (Num 4) (Num 0) (Num 0) (Num 0)))
    as [base Hbase].
  - vm_compute. reflexivity.
  - intros k Hk. destruct k as [|[|[|k]]]; [vm_compute; by eexists..|lia].
  - vm_compute in Hbase. discriminate.
Qed.

(** ** Point ids *)

Lemma split_no_sep sep s : sep ∉ chars s → split sep s = [s].
Proof.
  induction s as [|c s IH]; [done|]. cbn [chars String.list_ascii_of_string split].
  intros [Hc Hs]%not_elem_of_cons. rewrite decide_False by done.
  by rewrite IH.
Qed.

Lemma split_app sep s t :
  sep ∉ chars s → split sep (s +:+ String sep t) = s :: split sep t.
Proof.
  induction s as [|c s IH].
  - intros _. change ("" +:+ String sep t) with (String sep t).
    cbn [split]. by rewrite decide_True.
  - cbn [chars String.list_ascii_of_string].
    intros [Hc Hs]%not_elem_of_cons.
    change (String c s +:+ String sep t) with (String c (s +:+ String sep t)).
    cbn [split]. rewrite decide_False by done. by rewrite IH.
Qed.

Lemma last_char_snoc s c : last_char (s +:+ String c "") = String c "".
Proof. unfold last_char. rewrite chars_app. cbn. by rewrite last_snoc. Qed.

Lemma digit_pretty_char d : d < 10 → digit 10 (pretty_N_char d) = Some d.
Proof.
  intros Hd.
  assert (d = 0 ∨ d = 1 ∨ d = 2 ∨ d = 3 ∨ d = 4 ∨ d = 5 ∨ d = 6 ∨ d = 7
          ∨ d = 8 ∨ d = 9) as Hcases by lia.
  repeat (destruct Hcases as [->|Hcases]; [done|]). by subst.
Qed.

(** Reading back the digits [pretty_N_go] puts in front of a string. *)
Lemma decimal_pretty_go x :
  ∃ k, ∀ s acc, decimal (pretty_N_go x s) acc = decimal s (acc * 10 ^ k + x).
Proof.
  induction (N.lt_wf_0 x) as [x _ IH].
  destruct (decide (x = 0)) as [->|Hx].
  { exists 0. intros s acc. rewrite pretty_N_go_0. f_equal. lia. }
  destruct (IH (x / 10)) as [k Hk].
  { apply N.div_lt; lia. }
  exists (N.succ k). intros s acc.
  rewrite pretty_N_go_step, Hk by lia. cbn [decimal].
  rewrite digit_pretty_char by (apply N.mod_lt; lia).
  f_equal. rewrite N.pow_succ_r'.
  pose proof (N.div_mod x 10). lia.
Qed.

(** A number printed in decimal reads back as itself. *)
Lemma decimal_pretty (x : N) : decimal (pretty x) 0 = Some x.
Proof.
  unfold pretty, pretty_N. case_decide as Hx; [by subst|].
  destruct (decimal_pretty_go x) as [k ->]. cbn [decimal].
  by rewrite N.mul_0_l, N.add_0_l.
Qed.

Lemma decimal_all_digits s acc r c :
  decimal s acc = Some r → c ∈ chars s → is_Some (digit 10 c).
Proof.
  revert acc. induction s as [|c' s IH]; intros acc Hdec Hc.
  { by apply elem_of_nil in Hc. }
  cbn [decimal] in Hdec. cbn [chars String.list_ascii_of_string] in Hc.
  destruct (digit 10 c') as [d|] eqn:Hd; [|done].
  apply elem_of_cons in Hc as [->|Hc]; [by eexists|by eapply IH].
Qed.

Lemma pretty_no_dot (x : N) : "."%char ∉ chars (pretty x).
Proof.
  intros Hdot.
  by destruct (decimal_all_digits _ _ _ _ (decimal_pretty x) Hdot).
Qed.

Lemma pretty_one_digit (g : N) : g ≤ 9 → pretty g = String (pretty_N_char g) "".
Proof.
  intros Hg. unfold pretty, pretty_N. case_decide as H0; [by subst|].
  rewrite pretty_N_go_step by lia.
  rewrite N.div_small, N.mod_small by lia. apply pretty_N_go_0.
Qed.

(** The coil address of a point id with a one-digit group. *)
Lemma coil_address_point prefix (g idx : N) :
  "."%char ∉ chars prefix → g ≤ 9 →
  coil_address (prefix +:+ pretty g +:+ "." +:+ pretty idx)
  = Some ((Z.of_N g - 1) * 100 + (Z.of_N idx - 1))%Z.
Proof.
  intros Hprefix Hg. unfold coil_address.
  assert (Hsplit : split "." (prefix +:+ pretty g +:+ "." +:+ pretty idx)
                   = [prefix +:+ pretty g; pretty idx]).
  { rewrite <-string_app_assoc.
    change ("." +:+ pretty idx) with (String "."%char (pretty idx)).
    rewrite split_app, split_no_sep; [done|apply pretty_no_dot|].
    rewrite chars_app. intros [?|?]%elem_of_app; [done|].
    by apply (pretty_no_dot g). }
  rewrite Hsplit. cbn [lookup list_lookup default from_option id].
  rewrite (pretty_one_digit g) by done. rewrite last_char_snoc.
  unfold toNumber. cbn [decimal].
  rewrite digit_pretty_char by lia. cbn [fmap option_fmap option_map].
  by rewrite decimal_pretty.
Qed.

(** ** The write supervisor *)

Lemma set_unknown id value retries b :
  state b !! id = None →
  set id value retries b = (Throw (SyntaxError ("Unknown ID: " +:+ id)), b).
Proof. intros Hid. unfold set, validate, bind, getState. by rewrite Hid. Qed.

Lemma set_known id value retries b :
  is_Some (state b !! id) →
  set id value retries b =
    (Ok tt,
     Board (state b) (counter b) (groups b)
       (timers b ++ if decide (retries < 5)%nat
                    then [(VerifyCb id value retries, 100 * (N.of_nat retries + 1))]
                    else [])
       (trace b ++ WriteCoil (coil_address id) value ::
                   if decide (retries < 5)%nat
                   then [SetTimeout (VerifyCb id value retries)
                                    (100 * (N.of_nat retries + 1))]
                   else [])).
Proof.
  intros [cur Hid]. unfold set, validate, bind, getState. rewrite Hid.
  unfold effectful, setTimeout, ret. cbn.
  case_decide; cbn; [by rewrite <-app_assoc|by rewrite app_nil_r].
Qed.

Lemma coil_writes_app t1 t2 : coil_writes (t1 ++ t2) = coil_writes t1 ++ coil_writes t2.
Proof. apply omap_app. Qed.

Lemma timeouts_app t1 t2 : timeouts (t1 ++ t2) = timeouts t1 ++ timeouts t2.
Proof. apply omap_app. Qed.

(** C2 (as amended). [set] on an id that is not in the state cache (and
    names no inherited member of the cache) throws the unknown-id error and
    writes no coil; on a cached id <PREFIX><group>.<index> whose group is a
    single decimal digit and whose index is a decimal numeral below 2^52 it
    issues exactly one coil write at once, of the value, to the address
    (group - 1) * 100 + (index - 1). *)
Theorem set_validates_and_writes (b : board) (value : bool) (retries : nat) :
  (∀ id, id ∉ Object_prototype → state b !! id = None →
     set id value retries b = (Throw (SyntaxError ("Unknown ID: " +:+ id)), b)) ∧
  (∀ (prefix : string) (g idx : N),
     "."%char ∉ chars prefix → g ≤ 9 → idx < 2 ^ 52 →
     is_Some (state b !! (prefix +:+ pretty g +:+ "." +:+ pretty idx)) →
     (set (prefix +:+ pretty g +:+ "." +:+ pretty idx) value retries b).1 = Ok tt ∧
     coil_writes (trace (exec (set (prefix +:+ pretty g +:+ "." +:+ pretty idx)
                                   value retries) b))
     = coil_writes (trace b)
         ++ [(Some ((Z.of_N g - 1) * 100 + (Z.of_N idx - 1))%Z, value)]).
Proof.
  split.
  - intros id _. apply set_unknown.
  - intros prefix g idx Hprefix Hg _ Hid. unfold exec.
    rewrite set_known by done. cbn [fst snd trace]. split; [done|].
    rewrite coil_writes_app, coil_address_point by done.
    case_decide; done.
Qed.

Lemma set_validates_and_writes_witness :
  let b := exec (storeState "DO1" (Some 0) (Num 4)) new_board in
  set "DO1.5" true 0 b = (Throw (SyntaxError "Unknown ID: DO1.5"), b) ∧
  coil_writes (trace (exec (set "DO1.3" true 0) b)) = [(Some 2%Z, true)].
Proof.
  intros b.
  destruct (set_validates_and_writes b true 0) as [Hunknown Hknown].
  split.
  - apply (Hunknown "DO1.5").
    + apply (bool_decide_unpack _). vm_compute. exact I.
    + vm_compute. reflexivity.
  - apply (Hknown "DO" 1 3).
    + apply (bool_decide_unpack _). vm_compute. exact I.
    + lia.
    + reflexivity.
    + vm_compute. eexists. reflexivity.
Defined.

(** C2 as stated fails: only the last character before the dot is read as
    the group, so the write for the cached point DO10.1 goes to the address
    (0 - 1) * 100 + 0, not to 900. *)
Lemma set_two_digit_group_counterexample :
  ¬ (∀ (b : board) (prefix : string) (g idx : N) (value : bool),
       "."%char ∉ chars prefix → 1 ≤ g → 1 ≤ idx →
       is_Some (state b !! (prefix +:+ pretty g +:+ "." +:+ pretty idx)) →
       coil_writes (trace (exec (set (prefix +:+ pretty g +:+ "." +:+ pretty idx)
                                     value 0) b))
       = coil_writes (trace b)
           ++ [(Some ((Z.of_N g - 1) * 100 + (Z.of_N idx - 1))%Z, value)]).
Proof.
  intros H. specialize (H ten_groups "DO" 10 1 true).
  assert (Hwrite : coil_writes (trace (exec (set "DO10.1" true 0) ten_groups))
                   = [(Some (-100)%Z, true)]) by (vm_compute; reflexivity).
  change ("DO" +:+ pretty 10 +:+ "." +:+ pretty 1) with "DO10.1" in H.
  rewrite Hwrite in H.
  assert (Hnone : coil_writes (trace ten_groups) = []) by (vm_compute; reflexivity).
  rewrite Hnone in H.
  discriminate H.
  - apply (bool_decide_unpack _). vm_compute. exact I.
  - lia.
  - lia.
  - vm_compute. eexists. reflexivity.
Qed.

(** ** Verification and retry *)

Section supervise.
Context (caches : nat → gmap string number) (id : string) (value : bool).

Lemma supervise_done fuel k b :
  timers b = [] → supervise fuel caches k b = Some b.
Proof. intros Hb. destruct fuel; cbn; by rewrite Hb. Qed.

(** One verification: the timer of retry [r] fires on the cache [c]. *)
Lemma fire_verify r d c b :
  timers b = [(VerifyCb id value r, d)] →
  exec (handle (Fired 0)) (with_state c b) =
    if bool_decide (Boolean (c !! id) ≠ value) then
      match c !! id with
      | None =>
          Board c (counter b) (groups b) []
            (trace b ++ [ConsoleLog ("Retry (" +:+ pretty (S r) +:+ ")")])
      | Some _ =>
          Board c (counter b) (groups b)
            (if decide (S r < 5)%nat then [(VerifyCb id value (S r), retry_delay (S r))] else [])
            (trace b ++ [ConsoleLog ("Retry (" +:+ pretty (S r) +:+ ")");
                         WriteCoil (coil_address id) value]
                     ++ if decide (S r < 5)%nat
                        then [SetTimeout (VerifyCb id value (S r)) (retry_delay (S r))]
                        else [])
      end
    else Board c (counter b) (groups b) [] (trace b).
Proof.
  intros Hb. unfold exec, handle, bind, take_timer, with_state. cbn. rewrite Hb. cbn.
  unfold verify, bind, getState. cbn [state].
  case_bool_decide as Hcur; [|done].
  unfold effectful at 1. cbn.
  destruct (c !! id) as [cur|] eqn:Hc.
  - rewrite set_known by (cbn; by rewrite Hc). cbn.
    rewrite <-!app_assoc. cbn. by case_decide.
  - by rewrite set_unknown by done.
Qed.

Lemma supervise_step fuel k b :
  timers b ≠ [] →
  supervise (S fuel) caches k b
  = supervise fuel caches (S k) (exec (handle (Fired 0)) (with_state (caches k) b)).
Proof. intros Hb. cbn [supervise]. by destruct (timers b). Qed.

Lemma supervise_chain n r d k b :
  (r + n = 5)%nat → (r < 5)%nat →
  timers b = [(VerifyCb id value r, d)] →
  ∃ b' m,
    (∀ extra, supervise (n + extra) caches k b = Some b') ∧
    timers b' = [] ∧ (m ≤ n)%nat ∧
    coil_writes (trace b')
      = coil_writes (trace b) ++ replicate m (coil_address id, value) ∧
    timeouts (trace b')
      = timeouts (trace b) ++ (retry_delay <$> seq (S r) (m `min` (4 - r))) ∧
    (∀ j, (j < m)%nat → Boolean (caches (k + j)%nat !! id) ≠ value) ∧
    ((m < n)%nat →
     Boolean (caches (k + m)%nat !! id) = value ∨ caches (k + m)%nat !! id = None).
Proof.
  revert r d k b. induction n as [|n IH]; intros r d k b Hn Hr Hb; [lia|].
  assert (Hstep : ∀ extra, supervise (S n + extra) caches k b
            = supervise (n + extra) caches (S k)
                (exec (handle (Fired 0)) (with_state (caches k) b))).
  { intros extra. apply supervise_step. by rewrite Hb. }
  rewrite (fire_verify r d) in Hstep by done.
  case_bool_decide as Hcur.
  - destruct (caches k !! id) as [cur|] eqn:Hc.
    + destruct (decide (S r < 5)%nat) as [Hr'|Hr'].
      * specialize (IH (S r) (retry_delay (S r)) (S k)).
        match type of Hstep with
        | ∀ extra : nat, _ = supervise _ _ _ ?B =>
            destruct (IH B) as (b' & m & Hrun & Ht & Hm & Hw & Hd & Hdiff & Hstop);
              [lia|done|reflexivity|]
        end.
        exists b', (S m). split; [intros extra; by rewrite Hstep, Hrun|].
        rewrite Ht, Hw, Hd. cbn [trace].
        rewrite !coil_writes_app, !timeouts_app. cbn -[Nat.min Nat.sub seq].
        split_and!; try done.
        -- lia.
        -- by rewrite <-app_assoc.
        -- rewrite <-app_assoc. f_equal.
           replace (S m `min` (4 - r))%nat with (S (m `min` (4 - S r)))%nat by lia.
           done.
        -- intros [|j] Hj.
           ++ by rewrite Nat.add_0_r, Hc.
           ++ replace (k + S j)%nat with (S k + j)%nat by lia. apply Hdiff. lia.
        -- intros Hlt. replace (k + S m)%nat with (S k + m)%nat by lia.
           apply Hstop. lia.
      * eexists _, 1%nat. split.
        { intros extra. rewrite Hstep. by apply supervise_done. }
        cbn [trace timers].
        rewrite !coil_writes_app, !timeouts_app. cbn -[Nat.min Nat.sub seq].
        split_and!; try done.
        -- lia.
        -- by replace (1 `min` (4 - r))%nat with 0%nat by lia.
        -- intros j Hj. replace j with 0%nat by lia. by rewrite Nat.add_0_r, Hc.
        -- lia.
    + eexists _, 0%nat. split.
      { intros extra. rewrite Hstep. by apply supervise_done. }
      cbn [trace timers].
      rewrite !coil_writes_app, !timeouts_app. cbn -[Nat.min Nat.sub seq]. rewrite !app_nil_r.
      split_and!; try done; try lia.
      intros _. right. by rewrite Nat.add_0_r.
  - eexists _, 0%nat. split.
    { intros extra. rewrite Hstep. by apply supervise_done. }
    cbn [trace timers].
    rewrite !app_nil_r.
    split_and!; try done; try lia.
    intros _. left. rewrite Nat.add_0_r.
    by destruct (decide (Boolean (caches k !! id) = value)).
Qed.
End supervise.

(** C3. A supervised write on a cached id ends after at most five
    verifications, whatever the polls make of the cache in between: it has
    issued the write [m + 1 <= 6] times, where the first [m] verifications
    found the cached state different from the value and the next one, if
    [m < 5], found it equal (or the id gone) and wrote nothing more; the
    [k]-th verification was scheduled with delay [100 * (k + 1)].  When the
    value never shows in the cache there are six writes and the delays are
    100, 200, 300, 400 and 500. *)
Theorem set_retries_bounded (caches : nat → gmap string number) (id : string)
    (value : bool) (b : board) :
  timers b = [] → is_Some (state b !! id) →
  ∃ b' m,
    (∀ fuel, (5 ≤ fuel)%nat →
       supervise fuel caches 0 (exec (set id value 0) b) = Some b') ∧
    timers b' = [] ∧ (m ≤ 5)%nat ∧
    coil_writes (trace b')
      = coil_writes (trace b) ++ replicate (S m) (coil_address id, value) ∧
    timeouts (trace b')
      = timeouts (trace b)
          ++ ((λ k, 100 * (N.of_nat k + 1)) <$> seq 0 (S m `min` 5)) ∧
    (∀ j, (j < m)%nat → Boolean (caches j !! id) ≠ value) ∧
    ((m < 5)%nat → Boolean (caches m !! id) = value ∨ caches m !! id = None) ∧
    ((∀ j, (j < 5)%nat → is_Some (caches j !! id) ∧ Boolean (caches j !! id) ≠ value) →
     m = 5%nat ∧
     timeouts (trace b') = timeouts (trace b) ++ [100; 200; 300; 400; 500]).
Proof.
  intros Hb Hid. unfold exec. rewrite set_known by done. cbn [snd].
  rewrite Hb. destruct (decide (0 < 5)%nat) as [_|]; [|lia]. cbn [app].
  match goal with
  | |- ∃ b' m, (∀ fuel, _ → supervise _ _ _ ?B = _) ∧ _ =>
      destruct (supervise_chain caches id value 5 0%nat (100 * (N.of_nat 0 + 1)) 0%nat B)
        as (b' & m & Hrun & Ht & Hm & Hw & Hd & Hdiff & Hstop);
        [lia|lia|reflexivity|]
  end.
  exists b', m.
  assert (Hdelays : timeouts (trace b') = timeouts (trace b)
            ++ ((λ k, 100 * (N.of_nat k + 1)) <$> seq 0 (S m `min` 5))).
  { rewrite Hd. cbn [trace]. by rewrite timeouts_app, <-app_assoc. }
  split_and!; try done.
  - intros fuel Hfuel. replace fuel with (5 + (fuel - 5))%nat by lia. apply Hrun.
  - rewrite Hw. cbn [trace]. rewrite coil_writes_app, <-app_assoc. done.
  - intros Hnever.
    assert (m = 5%nat) as ->.
    { destruct (decide (m < 5)%nat) as [Hlt|]; [|lia].
      destruct (Hnever m Hlt) as [[cur Hcur] Hne].
      destruct (Hstop Hlt) as [?|Hnone]; [done|]. cbn in Hnone. congruence. }
    split; [done|]. by rewrite Hdelays.
Qed.


Lemma set_retries_bounded_witness :
  let b := exec (storeState "DO1" (Some 0) (Num 4)) new_board in
  ∃ b', supervise 5 (λ _, state b) 0 (exec (set "DO1.1" true 0) b) = Some b' ∧
        coil_writes (trace b') = replicate 6 (Some 0%Z, true) ∧
        timeouts (trace b') = [100; 200; 300; 400; 500].
Proof.
  intros b.
  assert (Ht : timers b = []) by (vm_compute; reflexivity).
  assert (Hid : is_Some (state b !! "DO1.1")) by (vm_compute; eexists; reflexivity).
  destruct (set_retries_bounded (λ _, state b) "DO1.1" true b Ht Hid)
    as (b' & m & Hrun & _ & _ & Hw & _ & _ & _ & Hnever).
  destruct Hnever as [-> Hd].
  { intros j _. split; [exact Hid|]. vm_compute. discriminate. }
  exists b'. split_and!.
  - apply Hrun. lia.
  - rewrite Hw. vm_compute. reflexivity.
  - rewrite Hd. vm_compute. reflexivity.
Defined.

(** ** The invariant of the state cache *)

Lemma keeps_ret {A} P (a : A) : keeps P (ret a).
Proof. by intros b. Qed.

Lemma keeps_throw {A} P e : keeps P (@throw A e).
Proof. by intros b. Qed.

Lemma keeps_bind {A B} P (m : M A) (k : A → M B) :
  keeps P m → (∀ a, keeps P (k a)) → keeps P (bind m k).
Proof.
  intros Hm Hk b Hb. rewrite exec_bind.
  destruct (m b).1; [apply Hk|]; by apply Hm.
Qed.

Lemma keeps_for_each {A} P (l : list A) body :
  (∀ x, x ∈ l → keeps P (body x)) → keeps P (for_each l body).
Proof.
  intros Hbody b Hb. apply for_each_invariant; [done|].
  intros x b' Hx. by apply Hbody.
Qed.

(** Effects other than a state read keep the invariant. *)
Lemma keeps_effectful e :
  (∀ s c g, e = ReadHoldingRegisters s c (StateCb g) → small_group g) →
  keeps cache_invariant (effectful e).
Proof.
  intros He b (Hcache & Hgroups & Hreads). split_and!; [done..|].
  intros s c g [Hin|Hin%list_elem_of_singleton]%elem_of_app; [by eapply Hreads|].
  by eapply He.
Qed.

Lemma keeps_report_error err : keeps cache_invariant (report_error err).
Proof.
  intros b Hb. unfold exec. rewrite report_error_raw.
  by apply (keeps_effectful (LogError (Raw err))).
Qed.

Lemma keeps_getState id : keeps cache_invariant (getState id).
Proof. by intros b. Qed.

Lemma keeps_setTimeout t d : keeps cache_invariant (setTimeout t d).
Proof.
  intros b Hb.
  by apply (keeps_effectful (SetTimeout t d)) in Hb.
Qed.

Lemma keeps_assign_counter id v : keeps cache_invariant (assign_counter id v).
Proof. by intros b. Qed.

Lemma keeps_update_entry id v :
  v = Num 0 ∨ v = Num 1 → keeps cache_invariant (update_entry id v).
Proof.
  intros Hv b (Hcache & Hgroups & Hreads).
  destruct (update_entry_frame id v b) as (_ & Hg & _).
  split_and!.
  - intros id' v'. rewrite update_entry_state.
    destruct (decide (id = id')) as [->|Hne].
    + rewrite lookup_insert_eq. by intros [= <-].
    + rewrite lookup_insert_ne by done. apply Hcache.
  - by rewrite Hg.
  - intros s c g. unfold exec, update_entry, bind, getState.
    destruct (differs _ _); [|apply Hreads]. cbn.
    case_bool_decide; cbn; rewrite ?elem_of_app, ?list_elem_of_singleton;
      intros Hin; destruct_or?; try done; try by eapply Hreads.
Qed.

Lemma decoded_boolean n i :
  (i < 16)%nat → decoded (Some n) i = Num 0 ∨ decoded (Some n) i = Num 1.
Proof.
  intros Hi. unfold decoded. rewrite decoded_value, decide_True by done.
  destruct (bit n i); auto.
Qed.

Lemma keeps_storeState prefix n len :
  (upto len ≤ 16)%nat → keeps cache_invariant (storeState prefix (Some n) len).
Proof.
  intros Hlen. apply keeps_for_each. intros i Hi%elem_of_seq.
  apply keeps_update_entry, decoded_boolean. lia.
Qed.

Lemma keeps_set id value retries : keeps cache_invariant (set id value retries).
Proof.
  unfold set. apply keeps_bind.
  - unfold validate. apply keeps_bind; [apply keeps_getState|].
    intros [v|]; [apply keeps_ret|apply keeps_throw].
  - intros _. apply keeps_bind; [by apply keeps_effectful|]. intros _.
    case_decide; [apply keeps_setTimeout|apply keeps_ret].
Qed.

Lemma keeps_run_timer t : keeps cache_invariant (run_timer t).
Proof.
  destruct t as [id value retries]. unfold run_timer, verify.
  apply keeps_bind; [apply keeps_getState|]. intros cur.
  case_bool_decide; [|apply keeps_ret].
  apply keeps_bind; [by apply keeps_effectful|]. intros _. apply keeps_set.
Qed.

Lemma keeps_on_connect id n : keeps cache_invariant (on_connect id n).
Proof.
  unfold on_connect. apply keeps_bind; [by apply keeps_effectful|]. intros _.
  apply keeps_for_each. intros i _. by apply keeps_effectful.
Qed.

Lemma elem_of_array_set {A} i (x y : A) a :
  Some y ∈ array_set i x a → y = x ∨ Some y ∈ a.
Proof.
  unfold array_set. case_decide.
  - intros (j & Hj)%list_elem_of_lookup.
    destruct (decide (i = j)) as [->|Hne].
    + rewrite list_lookup_insert_eq in Hj by done. left. congruence.
    + rewrite list_lookup_insert_ne in Hj by done. right.
      by eapply list_elem_of_lookup_2.
  - rewrite !elem_of_app, list_elem_of_singleton, elem_of_replicate.
    intros [?|[[? _]|?]]; [by right|done|left; congruence].
Qed.

Lemma keeps_updateState : keeps cache_invariant updateState.
Proof.
  intros b Hb. unfold exec, updateState.
  apply (keeps_for_each cache_invariant); [|done].
  intros i _. destruct (mjoin (groups b !! i)) as [g|] eqn:Hg; [|apply keeps_throw].
  apply keeps_effectful. intros s c g' [= _ _ <-].
  destruct Hb as (_ & Hgroups & _). apply Hgroups.
  destruct (groups b !! i) as [[g''|]|] eqn:Hi; try done.
  cbn in Hg. injection Hg as ->. by eapply list_elem_of_lookup_2.
Qed.

Lemma keeps_updateCount : keeps cache_invariant updateCount.
Proof.
  intros b Hb. unfold exec, updateCount.
  apply (keeps_for_each cache_invariant); [|done].
  intros i _. destruct (mjoin (groups b !! i)) as [g|]; [|apply keeps_throw].
  by apply keeps_effectful.
Qed.

Lemma requested_read cb b :
  requested cb b = true → ∃ s c, ReadHoldingRegisters s c cb ∈ trace b.
Proof.
  unfold requested. intros (e & He & Hcb)%existsb_exists.
  destruct e; try done. apply bool_decide_eq_true in Hcb as ->.
  eexists _, _. by apply list_elem_of_In.
Qed.

Lemma keeps_handle e :
  well_formed e → keeps cache_invariant (handle e).
Proof.
  destruct e as [id n|cb r| | |id value|k]; intros He; cbn [handle].
  - apply keeps_on_connect.
  - intros b Hb. unfold exec.
    destruct (requested cb b) eqn:Hreq; [|done].
    change (cache_invariant (exec (run_callback cb r) b)).
    apply requested_read in Hreq as (s & c & Hreq).
    destruct cb as [i|g|g], r as [err|data];
      cbn [run_callback capability_cb state_cb count_cb];
      try by apply keeps_report_error.
    + destruct Hb as (Hcache & Hgroups & Hreads). split_and!; [done| |done].
      intros g [->|?]%elem_of_array_set; [done|by apply Hgroups].
    + cbn in He.
      destruct data as [|w0 [|w1 data]]; [cbn in He; lia..|].
      destruct (proj2 (proj2 Hb) _ _ _ Hreq) as [Hdi Hdo].
      apply (keeps_bind cache_invariant); [by apply keeps_storeState| |done].
      intros _. by apply keeps_storeState.
    + apply (keeps_for_each cache_invariant); [|done].
      intros j _. apply keeps_assign_counter.
  - apply keeps_updateState.
  - apply keeps_updateCount.
  - apply keeps_set.
  - apply keeps_bind.
    + by intros b.
    + intros [t|]; [apply keeps_run_timer|apply keeps_ret].
Qed.

Lemma run_invariant es b :
  Forall well_formed es → cache_invariant b → cache_invariant (run es b).
Proof.
  intros Hes. revert b. induction Hes as [|e es He Hes IH]; intros b Hb; [done|].
  apply IH. by apply keeps_handle.
Qed.

(** C8 (as amended). As long as every state read delivers its two words and
    no group announces more than sixteen inputs or sixteen outputs, every
    value in the state cache is 0 or 1 after any sequence of events:
    discovery, polls, writes, timers. *)
Theorem state_cache_boolean (es : list event) :
  Forall well_formed es → boolean_cache (run es new_board).
Proof.
  intros Hes. apply (run_invariant es new_board Hes).
  split_and!.
  - intros id v. cbn [new_board state]. by rewrite lookup_empty.
  - intros g Hg. by apply elem_of_nil in Hg.
  - intros s c g [= ]%list_elem_of_singleton.
Qed.

Lemma state_cache_boolean_witness :
  let es := [Connected 0 1;
             Responded (CapabilityCb 0) (Success [1028; 0]);
             PollStates;
             Responded (StateCb (Group 1 (Num 4) (Num 4) (Num 0) (Num 0) (Num 0)))
                       (Success [5; 0])] in
  state (run es new_board) !! "DI1.3" = Some (Num 1) ∧
  boolean_cache (run es new_board).
Proof.
  intros es. split.
  - vm_compute. reflexivity.
  - apply state_cache_boolean. unfold es.
    repeat (apply Forall_cons; split; [cbn; try exact I; try lia|]).
    + split; vm_compute; lia.
    + apply Forall_nil. exact I.
Defined.

(** C8 as stated fails: a group announcing seventeen inputs makes the poll
    store [NaN] under the seventeenth point. *)
Lemma state_cache_NaN_counterexample :
  ¬ (∀ es : list event, boolean_cache (run es new_board)).
Proof.
  intros H.
  destruct (H [Connected 0 1;
               Responded (CapabilityCb 0) (Success [4352; 0]);
               PollStates;
               Responded (StateCb (Group 1 (Num 17) (Num 0) (Num 0) (Num 0) (Num 0)))
                         (Success [0; 0])]
              "DI1.17" NaN); [vm_compute; reflexivity|discriminate..].
Qed.

(** ** A session *)

(** One group of four inputs and four outputs is discovered and polled;
    DO1.1 is set and the next poll shows it on before the first
    verification: one write to coil 0, one timer of 100 ms, one
    notification. *)
Example session :
  let g := Group 1 (Num 4) (Num 4) (Num 0) (Num 0) (Num 0) in
  let b := run [Connected 0 1;
                Responded (CapabilityCb 0) (Success [1028; 0]);
                PollStates;
                Responded (StateCb g) (Success [5; 0]);
                SetPoint "DO1.1" true;
                PollStates;
                Responded (StateCb g) (Success [5; 1]);
                Fired 0] new_board in
  groups b = [Some g] ∧
  state b !! "DI1.1" = Some (Num 1) ∧ state b !! "DI1.2" = Some (Num 0) ∧
  state b !! "DO1.1" = Some (Num 1) ∧ state b !! "DI1.5" = None ∧
  coil_writes (trace b) = [(Some 0%Z, true)] ∧
  timeouts (trace b) = [100] ∧
  timers b = [] ∧
  notifications (trace b) = [("update", "DO1.1", "1")].
Proof. vm_compute. done. Qed.

(** * Further properties *)

(** ** The codec *)

Lemma length_chars_dec2bin n : length (chars (dec2bin (Some n))) = 16%nat.
Proof. by rewrite chars_dec2bin, length_fmap, length_reverse, length_seq. Qed.

(** X1. [dec2bin] of a register word - of any integer below 2^53 - is a
    string of sixteen binary digits, and reading it back in base two gives
    the word modulo 65536: the word itself when it is a 16-bit value. *)
Theorem dec2bin_roundtrip (v : N) :
  v < 2 ^ 53 →
  length (chars (dec2bin (Some v))) = 16%nat ∧
  (∀ c, c ∈ chars (dec2bin (Some v)) → c = "0"%char ∨ c = "1"%char) ∧
  parseInt 2 (Some (dec2bin (Some v))) = Num (v mod 65536) ∧
  (v < 65536 → parseInt 2 (Some (dec2bin (Some v))) = Num v).
Proof.
  intros _.
  assert (Hparse : parseInt 2 (Some (dec2bin (Some v))) = Num (v mod 65536)).
  { replace (dec2bin (Some v)) with (slice 0 16 (dec2bin (Some v))) at 1.
    - rewrite parseInt_slice by lia. f_equal.
      change (2 ^ N.of_nat (16 - 16)) with 1. by rewrite N.div_1_r.
    - unfold slice. rewrite drop_0, take_ge, unchars_chars; [done|].
      by rewrite length_chars_dec2bin. }
  split_and!.
  - apply length_chars_dec2bin.
  - intros c. rewrite chars_dec2bin.
    intros (i & -> & _)%list_elem_of_fmap. destruct (bit v i); auto.
  - done.
  - intros Hv. by rewrite Hparse, N.mod_small.
Qed.

Lemma dec2bin_roundtrip_witness :
  parseInt 2 (Some (dec2bin (Some 1028))) = Num 1028 ∧
  parseInt 2 (Some (dec2bin (Some 65541))) = Num 5.
Proof.
  assert (H1 : 1028 < 2 ^ 53) by reflexivity.
  assert (H2 : 65541 < 2 ^ 53) by reflexivity.
  destruct (dec2bin_roundtrip 1028 H1) as (_ & _ & _ & Hsmall).
  destruct (dec2bin_roundtrip 65541 H2) as (_ & _ & Hmod & _).
  split.
  - apply Hsmall. reflexivity.
  - exact Hmod.
Defined.

(** ** Loops of requests *)

Lemma for_each_effects {A} (f : A → effect) (l : list A) b :
  for_each l (λ x, effectful (f x)) b =
    (Ok tt, Board (state b) (counter b) (groups b) (timers b) (trace b ++ (f <$> l))).
Proof.
  revert b. induction l as [|x l IH]; intros b.
  - cbn. rewrite app_nil_r. by destruct b.
  - cbn [for_each]. unfold bind. cbn. rewrite IH. cbn.
    by rewrite <-app_assoc.
Qed.

Lemma for_each_ext {A} (l : list A) (body1 body2 : A → M unit) b :
  (∀ x, x ∈ l → body1 x = body2 x) →
  for_each l body1 b = for_each l body2 b.
Proof.
  revert b. induction l as [|x l IH]; intros b Hbody; [done|].
  cbn [for_each]. unfold bind. rewrite (Hbody x) by left.
  destruct (body2 x b) as [[[]|e] b']; [|done].
  apply IH. intros y Hy. apply Hbody. by right.
Qed.

Lemma on_connect_run (id : N) (n : nat) (b : board) :
  on_connect id n b =
    (Ok tt, Board (state b) (counter b) (groups b) (timers b)
                  (trace b ++ SetID id :: (capability_request <$> seq 0 n))).
Proof.
  unfold on_connect, bind, for_loop. cbn.
  rewrite (for_each_effects capability_request). cbn.
  by rewrite <-app_assoc.
Qed.

(** X2. The constructor's connect callback sets the unit id and then issues
    one read of two registers per group, for slot [i] at address
    [1001 + 100 i]; it returns, and touches neither the caches nor the
    groups nor the timers. *)
Theorem on_connect_requests (id : N) (n : nat) (b : board) :
  on_connect id n b =
    (Ok tt, Board (state b) (counter b) (groups b) (timers b)
                  (trace b ++ SetID id ::
                     ((λ i, ReadHoldingRegisters (Some (1001 + Z.of_nat i * 100)%Z)
                                                 (Num 2) (CapabilityCb i))
                        <$> seq 0 n))).
Proof. apply on_connect_run. Qed.

(** ** Discovery *)

Lemma length_array_set {A} i (x : A) a :
  length (array_set i x a) = (length a `max` S i)%nat.
Proof.
  unfold array_set. case_decide.
  - rewrite length_insert. lia.
  - rewrite !length_app, length_replicate. cbn. lia.
Qed.

(** What an array holds after a write by index. *)
Lemma array_set_lookup_index {A} i (x : A) a k :
  array_set i x a !! k =
    if decide (k = i) then Some (Some x)
    else if decide (k < length a)%nat then a !! k
    else if decide (k < i)%nat then Some None
    else None.
Proof.
  case_decide as Hk; [subst; apply array_set_lookup|].
  unfold array_set. case_decide as Hi.
  - rewrite list_lookup_insert_ne by done.
    repeat case_decide; try done; try lia. apply lookup_ge_None. lia.
  - case_decide as Hlen; [by rewrite lookup_app_l by lia|].
    rewrite lookup_app_r by lia.
    case_decide as Hlt.
    + rewrite lookup_app_l by (rewrite length_replicate; lia).
      apply lookup_replicate_2. lia.
    + apply lookup_ge_None. rewrite length_app, length_replicate. cbn. lia.
Qed.

Lemma array_set_comm {A} i j (x y : A) a :
  i ≠ j → array_set i x (array_set j y a) = array_set j y (array_set i x a).
Proof.
  intros Hij. apply list_eq. intros k.
  rewrite !array_set_lookup_index, !length_array_set.
  repeat case_decide; try done; try lia.
Qed.

(** X3. Two successful discovery callbacks for different slots can complete
    in either order: the board is the same. *)
Theorem capability_cb_commute (i j : nat) (d1 d2 : list N) (b : board) :
  i ≠ j →
  exec (capability_cb i (Success d1)) (exec (capability_cb j (Success d2)) b)
  = exec (capability_cb j (Success d2)) (exec (capability_cb i (Success d1)) b).
Proof.
  intros Hij. unfold exec. cbn. f_equal. by apply array_set_comm.
Qed.

Lemma capability_cb_commute_witness :
  groups (exec (capability_cb 0 (Success [1028; 0]))
               (exec (capability_cb 2 (Success [257; 0])) new_board))
  = [Some (Group 1 (Num 4) (Num 4) (Num 0) (Num 0) (Num 0)); None;
     Some (Group 3 (Num 1) (Num 1) (Num 0) (Num 0) (Num 0))].
Proof.
  assert (Hne : 0%nat ≠ 2%nat) by lia.
  rewrite (capability_cb_commute 0 2 [1028; 0] [257; 0] new_board Hne).
  vm_compute. reflexivity.
Defined.

(** ** Polling over the groups *)

Lemma lookup_discovered (gs : list group) (rest : list (option group)) i :
  (i < length gs)%nat →
  mjoin (((Some <$> gs) ++ rest) !! i) = gs !! i.
Proof.
  intros Hi. rewrite lookup_app_l by (by rewrite length_fmap).
  rewrite list_lookup_fmap. by destruct (gs !! i).
Qed.

(** A loop over slots that issues one request per discovered group and
    throws on a hole: it issues the requests of the groups before the first
    hole. *)
Lemma loop_discovered (f : nat → group → effect) (gs : list group)
    (rest : list (option group)) b :
  for_each (seq 0 (length gs))
    (λ i, match mjoin (((Some <$> gs) ++ rest) !! i) with
          | None => throw TypeError
          | Some g => effectful (f i g)
          end) b
  = (Ok tt, Board (state b) (counter b) (groups b) (timers b)
                  (trace b ++ imap f gs)).
Proof.
  revert rest b. induction gs as [|g gs IH] using rev_ind; intros rest b.
  { cbn. rewrite app_nil_r. by destruct b. }
  rewrite length_app. cbn [length]. rewrite Nat.add_1_r, seq_S, for_each_app.
  rewrite fmap_app, <-app_assoc.
  rewrite (IH (Some g :: rest)). cbn [for_each plus Nat.add]. unfold bind.
  rewrite lookup_app_r, length_fmap, Nat.sub_diag by (by rewrite length_fmap).
  cbn. rewrite imap_app, <-app_assoc. cbn. by rewrite Nat.add_0_r.
Qed.

Lemma loop_hole (f : nat → group → effect) (gs : list group)
    (rest : list (option group)) b :
  for_each (seq 0 (length ((Some <$> gs) ++ None :: rest)))
    (λ i, match mjoin (((Some <$> gs) ++ None :: rest) !! i) with
          | None => throw TypeError
          | Some g => effectful (f i g)
          end) b
  = (Throw TypeError, Board (state b) (counter b) (groups b) (timers b)
                            (trace b ++ imap f gs)).
Proof.
  rewrite length_app, length_fmap. cbn [length].
  rewrite seq_app, for_each_app, (loop_discovered f gs (None :: rest)).
  cbn [seq for_each]. unfold bind.
  rewrite lookup_app_r, length_fmap, Nat.sub_diag by (by rewrite length_fmap).
  done.
Qed.

(** X4. [updateState] issues one read of two registers per group, at
    address [(id - 1) * 100], as long as the slots are discovered.  At the
    first slot whose discovery failed it throws, and the groups after that
    slot are not read. *)
Theorem updateState_requests (gs : list group) (rest : list (option group)) (b : board) :
  (groups b = Some <$> gs →
   updateState b =
     (Ok tt, Board (state b) (counter b) (groups b) (timers b)
                   (trace b ++ (state_request <$> gs)))) ∧
  (groups b = (Some <$> gs) ++ None :: rest →
   updateState b =
     (Throw TypeError, Board (state b) (counter b) (groups b) (timers b)
                             (trace b ++ (state_request <$> gs)))).
Proof.
  split; intros Hgs; unfold updateState, for_loop; rewrite Hgs.
  - rewrite length_fmap, <-(app_nil_r (Some <$> gs)).
    etrans; [exact (loop_discovered (const state_request) gs [] b)|].
    by rewrite imap_const, app_nil_r, Hgs.
  - etrans; [exact (loop_hole (const state_request) gs rest b)|].
    by rewrite imap_const, Hgs.
Qed.

Lemma updateState_requests_witness :
  let g3 := Group 3 (Num 1) (Num 1) (Num 0) (Num 0) (Num 0) in
  let b := exec (capability_cb 0 (Success [1028; 0]))
                (exec (capability_cb 2 (Success [257; 0])) new_board) in
  updateState b =
    (Throw TypeError,
     Board ∅ ∅ (groups b) []
       [Connect;
        ReadHoldingRegisters (Some 0%Z) (Num 2)
          (StateCb (Group 1 (Num 4) (Num 4) (Num 0) (Num 0) (Num 0)))]).
Proof.
  intros g3 b.
  destruct (updateState_requests [Group 1 (Num 4) (Num 4) (Num 0) (Num 0) (Num 0)]
              [Some g3] b) as [_ Hhole].
  rewrite Hhole by (vm_compute; reflexivity).
  vm_compute. reflexivity.
Defined.

(** X5. [updateCount] issues one read per group, of twice its input count
    and at the base address of its slot, as long as the slots are
    discovered; at the first slot whose discovery failed it throws, and the
    groups after that slot are not read. *)
Theorem updateCount_requests (gs : list group) (rest : list (option group)) (b : board) :
  (groups b = Some <$> gs →
   updateCount b =
     (Ok tt, Board (state b) (counter b) (groups b) (timers b)
                   (trace b ++ imap count_request gs))) ∧
  (groups b = (Some <$> gs) ++ None :: rest →
   updateCount b =
     (Throw TypeError, Board (state b) (counter b) (groups b) (timers b)
                             (trace b ++ imap count_request gs))).
Proof.
  split; intros Hgs; unfold updateCount, for_loop; rewrite Hgs.
  - rewrite length_fmap, <-(app_nil_r (Some <$> gs)).
    rewrite (loop_discovered count_request gs []).
    by rewrite app_nil_r, Hgs.
  - by rewrite (loop_hole count_request gs rest), Hgs.
Qed.

Lemma updateCount_requests_witness :
  let g := Group 1 (Num 4) (Num 4) (Num 0) (Num 0) (Num 0) in
  let b := exec (capability_cb 0 (Success [1028; 0])) new_board in
  trace (exec updateCount b)
  = [Connect; ReadHoldingRegisters (Some 8%Z) (Num 8) (CountCb g)].
Proof.
  intros g b.
  destruct (updateCount_requests [g] [] b) as [Hdense _].
  unfold exec. rewrite Hdense by (vm_compute; reflexivity).
  vm_compute. reflexivity.
Defined.

(** ** A successful poll of the states *)

Lemma point_key (gid i : nat) (p : string) :
  p +:+ pretty gid +:+ "." +:+ pretty (i + 1)%nat = key (p +:+ pretty gid) i.
Proof. unfold key. by rewrite string_app_assoc. Qed.

Lemma input_output_keys_differ p q s t : "DI" +:+ p +:+ s ≠ "DO" +:+ q +:+ t.
Proof. intros H. apply (f_equal chars) in H. rewrite !chars_app in H. by injection H. Qed.

Lemma pretty_nat_split (g : nat) s :
  split "." (pretty g +:+ "." +:+ s) = pretty g :: split "." s.
Proof.
  change ("." +:+ s) with (String "."%char s).
  apply split_app, (pretty_no_dot (N.of_nat g)).
Qed.

(** Keys of different groups differ, whatever follows the dot. *)
Lemma group_key_inj (p : string) (g h : nat) s t :
  p +:+ pretty g +:+ "." +:+ s = p +:+ pretty h +:+ "." +:+ t → g = h.
Proof.
  intros H. apply (inj (String.app p)) in H.
  apply (f_equal (split ".")) in H. rewrite !pretty_nat_split in H.
  injection H as H _. by apply (inj pretty) in H.
Qed.

Lemma storeState_bit prefix w len b i :
  (i < upto len)%nat → (i < 16)%nat →
  state (exec (storeState prefix (Some w) len) b) !! key prefix i
  = Some (Num (N.b2n (N.testbit w (N.of_nat i)))).
Proof.
  intros Hlen Hi. rewrite storeState_lookup by done.
  unfold decoded. by rewrite decoded_value, decide_True by done.
Qed.

(** X6. After the callback of a successful state read of a group, input
    [i + 1] of the group holds bit [i] of the first word and output [i + 1]
    bit [i] of the second, for the indices below the group's counts (and
    below sixteen). *)
Theorem state_cb_success (g : group) (w0 w1 : N) (rest : list N) (b : board) :
  (state_cb g (Success (w0 :: w1 :: rest)) b).1 = Ok tt ∧
  (∀ i, (i < upto (g_di g))%nat → (i < 16)%nat →
     state (exec (state_cb g (Success (w0 :: w1 :: rest))) b)
       !! ("DI" +:+ pretty (g_id g) +:+ "." +:+ pretty (i + 1)%nat)
     = Some (Num (N.b2n (N.testbit w0 (N.of_nat i))))) ∧
  (∀ i, (i < upto (g_do g))%nat → (i < 16)%nat →
     state (exec (state_cb g (Success (w0 :: w1 :: rest))) b)
       !! ("DO" +:+ pretty (g_id g) +:+ "." +:+ pretty (i + 1)%nat)
     = Some (Num (N.b2n (N.testbit w1 (N.of_nat i))))).
Proof.
  cbn [state_cb lookup list_lookup].
  split_and!.
  - by rewrite result_bind, !storeState_returns.
  - intros i Hlen Hi. rewrite exec_bind, storeState_returns.
    rewrite storeState_lookup_other.
    + rewrite point_key. by apply storeState_bit.
    + intros j _. unfold key. rewrite !string_app_assoc.
      intros H. symmetry in H. by apply input_output_keys_differ in H.
  - intros i Hlen Hi. rewrite exec_bind, storeState_returns.
    rewrite point_key. by apply storeState_bit.
Qed.

Lemma state_cb_success_witness :
  let g := Group 1 (Num 8) (Num 8) (Num 0) (Num 0) (Num 0) in
  state (exec (state_cb g (Success [5; 2])) new_board) !! "DI1.3" = Some (Num 1) ∧
  state (exec (state_cb g (Success [5; 2])) new_board) !! "DO1.2" = Some (Num 1).
Proof.
  intros g.
  destruct (state_cb_success g 5 2 [] new_board) as (_ & Hdi & Hdo).
  split.
  - apply (Hdi 2%nat); cbn; lia.
  - apply (Hdo 1%nat); cbn; lia.
Defined.

(** X7. The callback of a successful state read of a group alters no input
    or output of another group, no point of its own group past the counts,
    and no counter. *)
Theorem state_cb_success_frame (g : group) (data : list N) (b : board) :
  (∀ (h : nat) (s : string), h ≠ g_id g →
     state (exec (state_cb g (Success data)) b) !! ("DI" +:+ pretty h +:+ "." +:+ s)
       = state b !! ("DI" +:+ pretty h +:+ "." +:+ s) ∧
     state (exec (state_cb g (Success data)) b) !! ("DO" +:+ pretty h +:+ "." +:+ s)
       = state b !! ("DO" +:+ pretty h +:+ "." +:+ s)) ∧
  (∀ i, (upto (g_di g) ≤ i)%nat →
     state (exec (state_cb g (Success data)) b)
       !! ("DI" +:+ pretty (g_id g) +:+ "." +:+ pretty (i + 1)%nat)
     = state b !! ("DI" +:+ pretty (g_id g) +:+ "." +:+ pretty (i + 1)%nat)) ∧
  (∀ i, (upto (g_do g) ≤ i)%nat →
     state (exec (state_cb g (Success data)) b)
       !! ("DO" +:+ pretty (g_id g) +:+ "." +:+ pretty (i + 1)%nat)
     = state b !! ("DO" +:+ pretty (g_id g) +:+ "." +:+ pretty (i + 1)%nat)) ∧
  counter (exec (state_cb g (Success data)) b) = counter b.
Proof.
  cbn [state_cb]. rewrite !exec_bind, !storeState_returns.
  assert (Hother : ∀ k,
    (∀ j, (j < upto (g_di g))%nat → key ("DI" +:+ pretty (g_id g)) j ≠ k) →
    (∀ j, (j < upto (g_do g))%nat → key ("DO" +:+ pretty (g_id g)) j ≠ k) →
    state (exec (storeState ("DO" +:+ pretty (g_id g)) (data !! 1%nat) (g_do g))
            (exec (storeState ("DI" +:+ pretty (g_id g)) (data !! 0%nat) (g_di g)) b)) !! k
    = state b !! k).
  { intros k Hdi Hdo. by rewrite !storeState_lookup_other. }
  split_and!.
  - intros h s Hh. split; apply Hother; intros j _; unfold key;
      rewrite !string_app_assoc; intros H;
      first [by apply group_key_inj in H
            |by apply input_output_keys_differ in H
            |symmetry in H; by apply input_output_keys_differ in H].
  - intros i Hi. apply Hother; intros j Hj; rewrite point_key.
    + intros H%key_inj. lia.
    + unfold key. rewrite !string_app_assoc. intros H. symmetry in H.
      by apply input_output_keys_differ in H.
  - intros i Hi. apply Hother; intros j Hj; rewrite point_key.
    + unfold key. rewrite !string_app_assoc. intros H.
      by apply input_output_keys_differ in H.
    + intros H%key_inj. lia.
  - destruct (storeState_frame ("DO" +:+ pretty (g_id g)) (data !! 1%nat) (g_do g)
      (exec (storeState ("DI" +:+ pretty (g_id g)) (data !! 0%nat) (g_di g)) b))
      as (-> & _).
    by destruct (storeState_frame ("DI" +:+ pretty (g_id g)) (data !! 0%nat) (g_di g) b)
      as (-> & _).
Qed.

Lemma state_cb_success_frame_witness :
  let g1 := Group 1 (Num 4) (Num 4) (Num 0) (Num 0) (Num 0) in
  let g2 := Group 2 (Num 4) (Num 4) (Num 0) (Num 0) (Num 0) in
  let b := exec (state_cb g1 (Success [15; 15])) new_board in
  state (exec (state_cb g2 (Success [0; 0])) b) !! "DI1.1" = Some (Num 1).
Proof.
  intros g1 g2 b.
  destruct (state_cb_success_frame g2 [0; 0] b) as (Hother & _).
  assert (Hne : 1%nat ≠ g_id g2) by (cbn; lia).
  destruct (Hother 1%nat "1" Hne) as [Hdi _].
  etrans; [exact Hdi|]. vm_compute. reflexivity.
Defined.

(** ** Repeated polls and notifications *)

Lemma update_entry_same id n b :
  state b !! id = Some (Num n) → update_entry id (Num n) b = (Ok tt, b).
Proof.
  intros Hb. unfold update_entry, bind, getState.
  rewrite differs_Num, Hb. by rewrite bool_decide_eq_false_2 by (intros H; by apply H).
Qed.

Lemma for_each_unchanged {A} (l : list A) (body : A → M unit) b :
  (∀ x, x ∈ l → body x b = (Ok tt, b)) → for_each l body b = (Ok tt, b).
Proof.
  induction l as [|x l IH]; intros Hbody; [done|].
  cbn [for_each]. unfold bind. rewrite Hbody by left.
  apply IH. intros y Hy. apply Hbody. by right.
Qed.

(** A register already in the cache is stored again without any effect. *)
Lemma storeState_same prefix w len b :
  (upto len ≤ 16)%nat →
  (∀ i, (i < upto len)%nat → state b !! key prefix i = Some (decoded (Some w) i)) →
  storeState prefix (Some w) len b = (Ok tt, b).
Proof.
  intros Hlen Hb. apply for_each_unchanged. intros i Hi%elem_of_seq.
  fold (key prefix i). fold (decoded (Some w) i).
  destruct (decoded_boolean w i) as [Hd|Hd]; [lia|..];
    rewrite Hd; apply update_entry_same; rewrite <-Hd; apply Hb; lia.
Qed.

(** X8. Polling is idempotent: when the callback of a successful state read
    runs a second time with the same two words, for a group of at most
    sixteen inputs and sixteen outputs, it stores nothing and announces
    nothing; the board stays as it is. *)
Theorem state_cb_idempotent (g : group) (w0 w1 : N) (rest : list N) (b : board) :
  small_group g →
  state_cb g (Success (w0 :: w1 :: rest)) (exec (state_cb g (Success (w0 :: w1 :: rest))) b)
  = (Ok tt, exec (state_cb g (Success (w0 :: w1 :: rest))) b).
Proof.
  intros [Hdi Hdo].
  set (b' := exec (state_cb g (Success (w0 :: w1 :: rest))) b).
  assert (Hin : ∀ i, (i < upto (g_di g))%nat →
            state b' !! key ("DI" +:+ pretty (g_id g)) i = Some (decoded (Some w0) i)).
  { intros i Hi. unfold b'. cbn [state_cb lookup list_lookup].
    rewrite exec_bind, storeState_returns, storeState_lookup_other.
    - by apply storeState_lookup.
    - intros j _. unfold key. rewrite !string_app_assoc.
      intros H. symmetry in H. by apply input_output_keys_differ in H. }
  assert (Hout : ∀ i, (i < upto (g_do g))%nat →
            state b' !! key ("DO" +:+ pretty (g_id g)) i = Some (decoded (Some w1) i)).
  { intros i Hi. unfold b'. cbn [state_cb lookup list_lookup].
    rewrite exec_bind, storeState_returns. by apply storeState_lookup. }
  cbn [state_cb lookup list_lookup]. unfold bind at 1.
  rewrite (storeState_same _ w0 _ b') by done.
  by rewrite (storeState_same _ w1 _ b') by done.
Qed.

Lemma state_cb_idempotent_witness :
  let g := Group 1 (Num 4) (Num 4) (Num 0) (Num 0) (Num 0) in
  let b := exec (state_cb g (Success [5; 1])) new_board in
  state_cb g (Success [5; 1]) b = (Ok tt, b).
Proof.
  intros g b. apply (state_cb_idempotent g 5 1 [] new_board).
  split; cbn; lia.
Defined.

Lemma omap_ext_in {A B} (f h : A → option B) (l : list A) :
  (∀ x, x ∈ l → f x = h x) → omap f l = omap h l.
Proof.
  induction l as [|x l IH]; intros Hfh; [done|].
  cbn. rewrite (Hfh x) by left. rewrite IH; [done|].
  intros y Hy. apply Hfh. by right.
Qed.

Lemma update_entry_notifications prefix value i b :
  notifications (trace (exec (update_entry (key prefix i) (decoded value i)) b))
  = notifications (trace b) ++ option_list (announced (state b) prefix value i).
Proof.
  unfold exec, update_entry, bind, getState, announced, differs.
  destruct (state b !! key prefix i) as [cur|]; cbn -[notifications].
  - destruct (strict_neq cur (decoded value i)); cbn -[notifications].
    + by rewrite <-app_assoc, notifications_app.
    + by rewrite app_nil_r.
  - by rewrite notifications_app.
Qed.

Lemma for_each_notifications prefix value l b :
  NoDup l →
  notifications (trace (exec (for_each l (λ i, update_entry (key prefix i) (decoded value i))) b))
  = notifications (trace b) ++ omap (announced (state b) prefix value) l.
Proof.
  intros Hl. revert b. induction Hl as [|i l Hi Hl IH]; intros b.
  { by rewrite app_nil_r. }
  cbn [for_each]. rewrite exec_bind, update_entry_returns, IH.
  rewrite update_entry_notifications, <-app_assoc. f_equal.
  cbn [omap list_omap].
  rewrite (omap_ext_in (announced (state (exec _ b)) prefix value)
                       (announced (state b) prefix value)).
  - by destruct (announced (state b) prefix value i).
  - intros j Hj. unfold announced. rewrite update_entry_state, lookup_insert_ne; [done|].
    intros Heq%key_inj. by subst.
Qed.

(** X9. [storeState] announces exactly the indices below the length whose
    point was in the cache with a different value, in index order and each
    with the id and the new value as text; on a cache holding none of the
    points it announces nothing. *)
Theorem storeState_notifications (prefix : string) (value : option N)
    (len : number) (b : board) :
  notifications (trace (exec (storeState prefix value len) b))
  = notifications (trace b)
      ++ omap (announced (state b) prefix value) (seq 0 (upto len)) ∧
  ((∀ i, (i < upto len)%nat → state b !! (prefix +:+ "." +:+ pretty (i + 1)%nat) = None) →
   notifications (trace (exec (storeState prefix value len) b)) = notifications (trace b)).
Proof.
  assert (Hall : notifications (trace (exec (storeState prefix value len) b))
    = notifications (trace b)
        ++ omap (announced (state b) prefix value) (seq 0 (upto len))).
  { apply for_each_notifications, NoDup_seq. }
  split; [done|]. intros Hfresh. rewrite Hall.
  rewrite (omap_ext_in _ (λ _, None)).
  - clear. induction (seq 0 (upto len)) as [|x l IH]; [by rewrite app_nil_r|done].
  - intros i Hi%elem_of_seq. unfold announced, key. by rewrite Hfresh by lia.
Qed.

Lemma storeState_notifications_witness :
  notifications (trace (exec (storeState "DI1" (Some 5) (Num 8)) new_board)) = [] ∧
  notifications (trace (exec (storeState "DI1" (Some 6) (Num 8))
                             (exec (storeState "DI1" (Some 5) (Num 8)) new_board)))
  = [("update", "DI1.1", "0"); ("update", "DI1.2", "1")].
Proof.
  split.
  - destruct (storeState_notifications "DI1" (Some 5) (Num 8) new_board) as [_ Hfresh].
    apply Hfresh. intros i _. reflexivity.
  - destruct (storeState_notifications "DI1" (Some 6) (Num 8)
                (exec (storeState "DI1" (Some 5) (Num 8)) new_board)) as [Hall _].
    rewrite Hall. vm_compute. reflexivity.
Defined.

(** ** The budget of coil writes *)

Lemma keeps_silent_effectful T W D e :
  coil_writes [e] = [] → timeouts [e] = [] → keeps (silent T W D) (effectful e).
Proof.
  intros Hw Hd b (Ht & HW & HD). unfold silent, exec. cbn.
  by rewrite coil_writes_app, timeouts_app, Hw, Hd, !app_nil_r.
Qed.

Lemma keeps_silent_update_entry T W D id v : keeps (silent T W D) (update_entry id v).
Proof.
  unfold update_entry. apply keeps_bind; [by intros b|]. intros cur.
  destruct (differs cur v); [|apply keeps_ret].
  apply keeps_bind.
  - intros b (Ht & HW & HD). unfold silent, exec. cbn.
    by rewrite coil_writes_app, timeouts_app, !app_nil_r.
  - intros _. case_bool_decide; [by apply keeps_silent_effectful|apply keeps_ret].
Qed.

Lemma keeps_silent_storeState T W D prefix value len :
  keeps (silent T W D) (storeState prefix value len).
Proof. apply keeps_for_each. intros i _. apply keeps_silent_update_entry. Qed.

Lemma keeps_silent_report_error T W D err : keeps (silent T W D) (report_error err).
Proof.
  intros b Hb. unfold exec. rewrite report_error_raw.
  by apply (keeps_silent_effectful T W D (LogError (Raw err))).
Qed.

Lemma keeps_silent_run_callback T W D cb r : keeps (silent T W D) (run_callback cb r).
Proof.
  destruct cb as [i|g|g], r as [err|data];
    cbn [run_callback capability_cb state_cb count_cb];
    try apply keeps_silent_report_error.
  - by intros b.
  - apply keeps_bind; [|intros _]; apply keeps_silent_storeState.
  - apply keeps_for_each. intros j _. by intros b.
Qed.

Lemma keeps_silent_on_connect T W D id n : keeps (silent T W D) (on_connect id n).
Proof.
  unfold on_connect. apply keeps_bind; [by apply keeps_silent_effectful|]. intros _.
  apply keeps_for_each. intros i _. by apply keeps_silent_effectful.
Qed.

Lemma keeps_silent_updateState T W D : keeps (silent T W D) updateState.
Proof.
  intros b Hb. unfold exec, updateState.
  apply (keeps_for_each (silent T W D)); [|done].
  intros i _. destruct (mjoin (groups b !! i)); [|apply keeps_throw].
  by apply keeps_silent_effectful.
Qed.

Lemma keeps_silent_updateCount T W D : keeps (silent T W D) updateCount.
Proof.
  intros b Hb. unfold exec, updateCount.
  apply (keeps_for_each (silent T W D)); [|done].
  intros i _. destruct (mjoin (groups b !! i)); [|apply keeps_throw].
  by apply keeps_silent_effectful.
Qed.

(** What keeps the timers, the writes and the delays keeps the budget. *)
Lemma silent_budget {A} (m : M A) n b :
  (∀ T W D, keeps (silent T W D) m) → write_budget n b → write_budget n (exec m b).
Proof.
  intros Hm (Hsum & Hts & Hds).
  destruct (Hm _ _ _ b (conj eq_refl (conj eq_refl eq_refl))) as (Ht & HW & HD).
  unfold write_budget, pending_writes. by rewrite Ht, HW, HD.
Qed.

Lemma sum_list_with_delete {A} (f : A → nat) (l : list A) k x :
  l !! k = Some x → sum_list_with f l = (f x + sum_list_with f (delete k l))%nat.
Proof.
  revert k. induction l as [|y l IH]; intros [|k] Hk; try done.
  - cbn in Hk. by injection Hk as ->.
  - change (sum_list_with f (y :: l)) with (f y + sum_list_with f l)%nat.
    change (delete (S k) (y :: l)) with (y :: delete k l).
    change (sum_list_with f (y :: delete k l))
      with (f y + sum_list_with f (delete k l))%nat.
    rewrite (IH k Hk). lia.
Qed.

Lemma Forall_delete {A} (P : A → Prop) (l : list A) k :
  Forall P l → Forall P (delete k l).
Proof.
  intros Hl. revert k. induction Hl as [|x l Hx Hl IH]; intros [|k]; try done.
  constructor; [done|apply IH].
Qed.

Lemma delete_out_of_range {A} (l : list A) k : l !! k = None → delete k l = l.
Proof.
  revert k. induction l as [|x l IH]; intros [|k] Hk; try done.
  change (delete (S k) (x :: l)) with (x :: delete k l). by rewrite IH.
Qed.

Lemma delay_allowed r :
  (r < 5)%nat → 100 * (N.of_nat r + 1) ∈ [100; 200; 300; 400; 500].
Proof.
  intros Hr. destruct r as [|[|[|[|[|r]]]]]; [| | | | |lia];
    cbn; rewrite !elem_of_cons; auto 10.
Qed.

(** A call of [set] by a consumer takes six from the budget at most. *)
Lemma budget_set n id value b :
  write_budget n b → write_budget (S n) (exec (set id value 0) b).
Proof.
  intros (Hsum & Hts & Hds). unfold exec.
  destruct (state b !! id) as [cur|] eqn:Hid.
  - rewrite set_known by (by rewrite Hid). cbn [snd].
    destruct (decide (0 < 5)%nat) as [_|]; [|lia].
    unfold write_budget, pending_writes in *. cbn [trace timers].
    rewrite coil_writes_app, timeouts_app, length_app, sum_list_with_app.
    cbn. split_and!.
    + lia.
    + apply Forall_app. split; [done|]. apply Forall_singleton. cbn. lia.
    + apply Forall_app. split; [done|]. apply Forall_singleton.
      rewrite !elem_of_cons. auto.
  - rewrite set_unknown by done. cbn [snd]. split_and!; [lia|done..].
Qed.

(** A timer that fires gives back what it takes. *)
Lemma budget_fired n k b :
  write_budget n b → write_budget n (exec (handle (Fired k)) b).
Proof.
  intros (Hsum & Hts & Hds). unfold exec, handle, bind, take_timer. cbn.
  destruct (timers b !! k) as [[t d]|] eqn:Hk; cbn.
  - destruct t as [id value r].
    assert (Hr : (r < 5)%nat).
    { apply (Forall_lookup_1 _ _ _ _ Hts) in Hk. cbn in Hk. lia. }
    assert (Hsum' : (length (coil_writes (trace b))
                     + (5 - r + sum_list_with weight (delete k (timers b))) ≤ 6 * n)%nat).
    { unfold pending_writes in Hsum.
      by rewrite (sum_list_with_delete weight (timers b) k _ Hk) in Hsum. }
    assert (Hts' : Forall (λ t, 1 ≤ weight t)%nat (delete k (timers b))).
    { by apply Forall_delete. }
    unfold run_timer, verify, bind, getState. cbn [state fst snd].
    case_bool_decide as Hcur.
    + unfold effectful at 1. cbn.
      destruct (state b !! id) as [cur|] eqn:Hid.
      * rewrite set_known by (cbn; by rewrite Hid). cbn [snd].
        unfold write_budget, pending_writes. cbn [trace timers].
        rewrite !coil_writes_app, !timeouts_app, !length_app, sum_list_with_app.
        case_decide as Hr'; cbn; rewrite ?app_nil_r; split_and!; try done; try lia.
        -- apply Forall_app. split; [done|]. apply Forall_singleton. cbn. lia.
        -- apply Forall_app. split; [done|]. apply Forall_singleton.
           by apply (delay_allowed (S r)).
      * rewrite set_unknown by done. cbn [snd].
        unfold write_budget, pending_writes. cbn [trace timers].
        rewrite coil_writes_app, timeouts_app, !app_nil_r.
        split_and!; [lia|done..].
    + unfold write_budget, pending_writes, ret. cbn [trace timers snd].
      split_and!; [lia|done..].
  - unfold write_budget, pending_writes, ret. cbn [trace timers snd].
    by rewrite delete_out_of_range by done.
Qed.

Lemma budget_handle n e b :
  write_budget n b → write_budget (n + set_points [e]) (exec (handle e) b).
Proof.
  intros Hb. destruct e as [id g|cb r| | |id value|k]; cbn [set_points];
    rewrite ?Nat.add_0_r, ?Nat.add_1_r.
  - apply silent_budget; [|done]. intros. apply keeps_silent_on_connect.
  - unfold exec. cbn [handle]. destruct (requested cb b); [|done].
    change (write_budget n (exec (run_callback cb r) b)).
    apply silent_budget; [|done]. intros. apply keeps_silent_run_callback.
  - apply silent_budget; [|done]. intros. apply keeps_silent_updateState.
  - apply silent_budget; [|done]. intros. apply keeps_silent_updateCount.
  - by apply budget_set.
  - by apply budget_fired.
Qed.

Lemma set_points_cons e es : set_points (e :: es) = (set_points [e] + set_points es)%nat.
Proof. by destruct e. Qed.

Lemma budget_run n es b :
  write_budget n b → write_budget (n + set_points es) (run es b).
Proof.
  revert n b. induction es as [|e es IH]; intros n b Hb.
  { by rewrite Nat.add_0_r. }
  rewrite set_points_cons, Nat.add_assoc. apply IH. by apply budget_handle.
Qed.

Lemma budget_new_board : write_budget 0 new_board.
Proof. split_and!; [cbn; lia|apply Forall_nil; exact I..]. Qed.

(** X10. Whatever the events and their order (polls, responses, timers,
    several writes under way at once, to the same point or not), the board
    issues at most six coil writes per call of [set] by a consumer. *)
Theorem coil_writes_bounded (es : list event) :
  (length (coil_writes (trace (run es new_board))) ≤ 6 * set_points es)%nat.
Proof.
  destruct (budget_run 0 es new_board budget_new_board) as (Hsum & _).
  cbn [Nat.add] in Hsum. lia.
Qed.

(** X11. Every timer the board ever sets has a delay of 100, 200, 300, 400
    or 500 ms. *)
Theorem timer_delays_bounded (es : list event) (d : N) :
  d ∈ timeouts (trace (run es new_board)) → d ∈ [100; 200; 300; 400; 500].
Proof.
  destruct (budget_run 0 es new_board budget_new_board) as (_ & _ & Hds).
  intros Hd. by apply (proj1 (Forall_forall _ _) Hds).
Qed.

Lemma timer_delays_bounded_witness :
  let es := [Connected 0 1;
             Responded (CapabilityCb 0) (Success [1028; 0]);
             PollStates;
             Responded (StateCb (Group 1 (Num 4) (Num 4) (Num 0) (Num 0) (Num 0)))
                       (Success [0; 0]);
             SetPoint "DO1.1" true; Fired 0] in
  timeouts (trace (run es new_board)) = [100; 200] ∧
  200 ∈ [100; 200; 300; 400; 500].
Proof.
  intros es.
  assert (Hrun : timeouts (trace (run es new_board)) = [100; 200])
    by (vm_compute; reflexivity).
  split; [exact Hrun|].
  apply (timer_delays_bounded es 200). rewrite Hrun.
  apply elem_of_cons. right. apply elem_of_cons. left. reflexivity.
Defined.

(** ** The counters and the states *)

Lemma count_cb_state (g : group) (r : response) (b : board) :
  state (exec (count_cb g r) b) = state b.
Proof.
  destruct r as [err|data]; cbn [count_cb].
  - unfold exec. by rewrite report_error_raw.
  - unfold for_loop.
    by destruct (for_each_counter
      (λ j, "DI" +:+ pretty (g_id g) +:+ "." +:+ pretty (j + 1)%nat)
      (λ j, plus (data !! (j * 2)%nat) (data !! (j * 2 + 1)%nat))
      (seq 0 (upto (g_di g))) b) as (_ & _ & ?).
Qed.

(** X13. The two caches are independent: the callback of a counter read
    alters no state, sends no notification and never throws, and stores
    [NaN] for an input whose two words the response does not both carry. *)
Theorem count_cb_independent (g : group) (r : response) (b : board) :
  (count_cb g r b).1 = Ok tt ∧
  state (exec (count_cb g r) b) = state b ∧
  notifications (trace (exec (count_cb g r) b)) = notifications (trace b) ∧
  (∀ data j, r = Success data → (j < upto (g_di g))%nat →
     data !! (2 * j)%nat = None ∨ data !! (2 * j + 1)%nat = None →
     counter (exec (count_cb g r) b)
       !! ("DI" +:+ pretty (g_id g) +:+ "." +:+ pretty (j + 1)%nat) = Some NaN).
Proof.
  destruct r as [err|data]; cbn [count_cb].
  - unfold exec. rewrite report_error_raw. cbn.
    rewrite notifications_app, app_nil_r. split_and!; try done.
  - unfold for_loop.
    destruct (for_each_counter
      (λ j, "DI" +:+ pretty (g_id g) +:+ "." +:+ pretty (j + 1)%nat)
      (λ j, plus (data !! (j * 2)%nat) (data !! (j * 2 + 1)%nat))
      (seq 0 (upto (g_di g))) b) as (Hok & Hcounter & Hstate).
    split_and!; try done.
    + apply (for_each_invariant
        (λ b', notifications (trace b') = notifications (trace b))); [done|].
      by intros j b' _.
    + intros data' j [= <-] Hj Hmissing. rewrite Hcounter.
      rewrite (foldl_insert_lookup
        (λ j, "DI" +:+ pretty (g_id g) +:+ "." +:+ pretty (j + 1)%nat)
        (λ j, plus (data !! (j * 2)%nat) (data !! (j * 2 + 1)%nat))).
      * rewrite (Nat.mul_comm j 2).
        destruct Hmissing as [-> | ->]; [done|]. by destruct (data !! (2 * j)%nat).
      * apply counter_key_inj.
      * apply elem_of_seq. lia.
Qed.

Lemma count_cb_independent_witness :
  let g := Group 1 (Num 2) (Num 2) (Num 0) (Num 0) (Num 0) in
  counter (exec (count_cb g (Success [7; 1; 3])) new_board) !! "DI1.2" = Some NaN.
Proof.
  intros g.
  destruct (count_cb_independent g (Success [7; 1; 3]) new_board) as (_ & _ & _ & Hshort).
  apply (Hshort [7; 1; 3] 1%nat); [reflexivity|cbn; lia|right; reflexivity].
Defined.

(** ** Coil addresses *)

(** The last character of a decimal numeral is its last digit. *)
Lemma last_pretty_go x s :
  s ≠ "" → last (chars (pretty_N_go x s)) = last (chars s).
Proof.
  revert s. induction (N.lt_wf_0 x) as [x _ IH]; intros s Hs.
  destruct (decide (x = 0)) as [->|Hx]; [by rewrite pretty_N_go_0|].
  rewrite pretty_N_go_step by lia.
  rewrite IH; [|apply N.div_lt; lia|done].
  cbn. by destruct s.
Qed.

Lemma last_char_pretty (x : N) :
  last_char (pretty x) = String (pretty_N_char (x mod 10)) "".
Proof.
  unfold last_char, pretty, pretty_N. case_decide as Hx; [by subst|].
  rewrite pretty_N_go_step by lia.
  by rewrite last_pretty_go.
Qed.

Lemma last_char_app s t : t ≠ "" → last_char (s +:+ t) = last_char t.
Proof.
  intros Ht. unfold last_char. rewrite chars_app.
  destruct t as [|c t]; [done|]. cbn [chars String.list_ascii_of_string].
  by rewrite last_app_cons.
Qed.

Lemma pretty_nonempty (x : N) : pretty x ≠ "".
Proof.
  intros Hx. pose proof (last_char_pretty x) as Hlast.
  by rewrite Hx in Hlast.
Qed.

Lemma coil_address_digit (prefix : string) (g idx : N) :
  "."%char ∉ chars prefix →
  coil_address (prefix +:+ pretty g +:+ "." +:+ pretty idx)
  = Some ((Z.of_N (g mod 10) - 1) * 100 + (Z.of_N idx - 1))%Z.
Proof.
  intros Hprefix. unfold coil_address.
  assert (Hsplit : split "." (prefix +:+ pretty g +:+ "." +:+ pretty idx)
                   = [prefix +:+ pretty g; pretty idx]).
  { rewrite <-string_app_assoc.
    change ("." +:+ pretty idx) with (String "."%char (pretty idx)).
    rewrite split_app, split_no_sep; [done|apply pretty_no_dot|].
    rewrite chars_app. intros [?|?]%elem_of_app; [done|].
    by apply (pretty_no_dot g). }
  rewrite Hsplit. cbn [lookup list_lookup default from_option id].
  rewrite last_char_app by apply pretty_nonempty.
  rewrite last_char_pretty.
  unfold toNumber. cbn [decimal].
  rewrite digit_pretty_char by (apply N.mod_lt; lia).
  cbn [fmap option_fmap option_map].
  by rewrite decimal_pretty.
Qed.

(** X14. For an id <PREFIX><group>.<index> with decimal group and index,
    the index below 2^52, [set] computes the coil address from the last
    digit of the group alone: [(group mod 10 - 1) * 100 + (index - 1)],
    whatever the prefix. *)
Theorem coil_address_last_digit (prefix : string) (g idx : N) :
  "."%char ∉ chars prefix → idx < 2 ^ 52 →
  coil_address (prefix +:+ pretty g +:+ "." +:+ pretty idx)
  = Some ((Z.of_N (g mod 10) - 1) * 100 + (Z.of_N idx - 1))%Z.
Proof. intros Hprefix _. by apply coil_address_digit. Qed.

Lemma coil_address_last_digit_witness :
  coil_address "DO12.3" = Some 102%Z.
Proof.
  assert (Hprefix : "."%char ∉ chars "DO").
  { apply (bool_decide_unpack _). vm_compute. exact I. }
  assert (Hidx : 3 < 2 ^ 52) by reflexivity.
  exact (coil_address_last_digit "DO" 12 3 Hprefix Hidx).
Defined.

(** X15. Points of one-digit groups with indices from 1 to 100 have coil
    addresses of their own: two ids with the same address have the same
    group and the same index, whatever their prefixes. *)
Theorem coil_address_injective (p q : string) (g h i j : N) :
  "."%char ∉ chars p → "."%char ∉ chars q →
  1 ≤ g ≤ 9 → 1 ≤ h ≤ 9 → 1 ≤ i ≤ 100 → 1 ≤ j ≤ 100 →
  coil_address (p +:+ pretty g +:+ "." +:+ pretty i)
    = coil_address (q +:+ pretty h +:+ "." +:+ pretty j) →
  g = h ∧ i = j.
Proof.
  intros Hp Hq Hg Hh Hi Hj.
  rewrite !coil_address_point by (done || lia).
  intros [= Heq]. lia.
Qed.

Lemma coil_address_injective_witness :
  coil_address "DO1.5" = coil_address "DI1.5" ∧ (1 = 1 ∧ 5 = 5).
Proof.
  assert (Hp : "."%char ∉ chars "DO").
  { apply (bool_decide_unpack _). vm_compute. exact I. }
  assert (Hq : "."%char ∉ chars "DI").
  { apply (bool_decide_unpack _). vm_compute. exact I. }
  assert (Heq : coil_address "DO1.5" = coil_address "DI1.5") by (vm_compute; reflexivity).
  split; [exact Heq|].
  apply (coil_address_injective "DO" "DI" 1 1 5 5 Hp Hq); try lia. exact Heq.
Defined.

(** ** The two revisions of [set] *)

(** X12. On a point id <PREFIX><group>.<index> (decimal group and index,
    the index below 2^52) the older [set] writes the coil
    (group mod 10 - 1) * 100 + (index - 1) whether the id is cached or not,
    and sets no timer.  When the id is cached the current [set] with its
    retries used up does just that, and with retries left it adds one timer
    to it; when the id is not cached the current one throws and writes
    nothing where the older one wrote. *)
Theorem set_revisions (prefix : string) (g idx : N) (value : bool) (retries : nat)
    (b : board) :
  let id := prefix +:+ pretty g +:+ "." +:+ pretty idx in
  let coilId := Some ((Z.of_N (g mod 10) - 1) * 100 + (Z.of_N idx - 1))%Z in
  "."%char ∉ chars prefix → idx < 2 ^ 52 →
  LegacyBoard.set id value b =
    (Ok tt, Board (state b) (counter b) (groups b) (timers b)
                  (trace b ++ [WriteCoil coilId value])) ∧
  (is_Some (state b !! id) → (5 ≤ retries)%nat →
   set id value retries b = LegacyBoard.set id value b) ∧
  (is_Some (state b !! id) → (retries < 5)%nat →
   set id value retries b =
     setTimeout (VerifyCb id value retries) (100 * (N.of_nat retries + 1))
                (exec (LegacyBoard.set id value) b)) ∧
  (state b !! id = None →
   (set id value retries b).1 = Throw (SyntaxError ("Unknown ID: " +:+ id)) ∧
   coil_writes (trace (exec (set id value retries) b)) = coil_writes (trace b) ∧
   coil_writes (trace (exec (LegacyBoard.set id value) b))
     = coil_writes (trace b) ++ [(coilId, value)]).
Proof.
  intros id coilId Hprefix _.
  assert (Hcoil : coil_address id = coilId) by by apply coil_address_digit.
  split_and!.
  - unfold LegacyBoard.set. by rewrite Hcoil.
  - intros Hid Hr. rewrite set_known by done.
    rewrite !decide_False by lia. by rewrite app_nil_r.
  - intros Hid Hr. rewrite set_known by done.
    destruct (decide (retries < 5)%nat); [|lia].
    unfold exec, LegacyBoard.set, effectful, setTimeout. cbn.
    by rewrite <-app_assoc.
  - intros Hid. unfold exec. rewrite set_unknown by done. cbn.
    split_and!; [done..|]. by rewrite coil_writes_app, Hcoil.
Qed.

Lemma set_revisions_witness :
  let b := exec (storeState "DO1" (Some 0) (Num 4)) new_board in
  set "DO1.2" true 5 b = LegacyBoard.set "DO1.2" true b ∧
  timeouts (trace (exec (set "DO1.2" true 1) b)) = [200] ∧
  coil_writes (trace (exec (LegacyBoard.set "DO1.9" true) b)) = [(Some 8%Z, true)] ∧
  coil_writes (trace (exec (set "DO1.9" true 0) b)) = [].
Proof.
  intros b.
  assert (Hprefix : "."%char ∉ chars "DO").
  { apply (bool_decide_unpack _). vm_compute. exact I. }
  assert (H2 : 2 < 2 ^ 52) by reflexivity.
  assert (H9 : 9 < 2 ^ 52) by reflexivity.
  assert (Hid : is_Some (state b !! "DO1.2")) by (vm_compute; eexists; reflexivity).
  assert (Hno : state b !! "DO1.9" = None) by (vm_compute; reflexivity).
  destruct (set_revisions "DO" 1 2 true 5 b Hprefix H2) as (_ & Hused & _ & _).
  destruct (set_revisions "DO" 1 2 true 1 b Hprefix H2) as (_ & _ & Hleft & _).
  destruct (set_revisions "DO" 1 9 true 0 b Hprefix H9) as (_ & _ & _ & Hunknown).
  destruct (Hunknown Hno) as (_ & Hnew & Hold).
  split_and!.
  - apply Hused; [exact Hid|lia].
  - assert (Hlt : (1 < 5)%nat) by lia.
    unfold exec. rewrite (Hleft Hid Hlt : set "DO1.2" true 1 b = _).
    vm_compute. reflexivity.
  - etrans; [exact Hold|]. vm_compute. reflexivity.
  - etrans; [exact Hnew|]. vm_compute. reflexivity.
Defined.

(** ** A response that lacks a word *)

Lemma decoded_missing i :
  decoded None i = if decide (3 ≤ i < 16)%nat then Num 0 else NaN.
Proof.
  do 16 (destruct i as [|i]; [vm_compute; reflexivity|]).
  rewrite decide_False by lia. reflexivity.
Qed.

(** X16. A register that the response does not carry is decoded from the
    text of [NaN]: [storeState] files [NaN] under the points 1 to 3 (and
    past 16) and 0 under the points 4 to 16.  So the callback of a state
    read that delivers one word only sets the first three outputs of the
    group to [NaN]. *)
Theorem storeState_missing_word (prefix : string) (len : number) (b : board) (i : nat) :
  (i < upto len)%nat →
  state (exec (storeState prefix None len) b) !! (prefix +:+ "." +:+ pretty (i + 1)%nat)
    = Some (if decide (3 ≤ i < 16)%nat then Num 0 else NaN) ∧
  ∀ (g : group) (w0 : N),
    (i < upto (g_do g))%nat → (i < 3)%nat →
    state (exec (state_cb g (Success [w0])) b)
      !! ("DO" +:+ pretty (g_id g) +:+ "." +:+ pretty (i + 1)%nat) = Some NaN.
Proof.
  intros Hi. split.
  - fold (key prefix i). by rewrite storeState_lookup, decoded_missing.
  - intros g w0 Hdo H3. cbn [state_cb lookup list_lookup].
    rewrite exec_bind, storeState_returns, point_key.
    rewrite storeState_lookup, decoded_missing by done.
    by rewrite decide_False by lia.
Qed.

Lemma storeState_missing_word_witness :
  state (exec (storeState "DO1" None (Num 8)) new_board) !! "DO1.2" = Some NaN ∧
  state (exec (storeState "DO1" None (Num 8)) new_board) !! "DO1.5" = Some (Num 0).
Proof.
  split.
  - assert (Hi : (1 < upto (Num 8))%nat) by (cbn; lia).
    destruct (storeState_missing_word "DO1" (Num 8) new_board 1 Hi) as [Hstored _].
    exact Hstored.
  - assert (Hi : (4 < upto (Num 8))%nat) by (cbn; lia).
    destruct (storeState_missing_word "DO1" (Num 8) new_board 4 Hi) as [Hstored _].
    exact Hstored.
Defined.

(** ** The two revisions of the poll *)

Lemma store_related prefix value len b1 b2 :
  state b1 = state b2 →
  notifications (trace b1) = notifications (trace b2) →
  (Legacy.store prefix value len b1).1 = Ok tt ∧
  state (exec (Legacy.store prefix value len) b1)
    = state (exec (storeState prefix value len) b2) ∧
  notifications (trace (exec (Legacy.store prefix value len) b1))
    = notifications (trace (exec (storeState prefix value len) b2)).
Proof.
  intros Hst Hn. split.
  - apply for_each_returns. intros i b' _.
    by destruct (update_entry_revisions
      (prefix +:+ "." +:+ pretty (i + 1)%nat)
      (parseInt 10 (reverse (split_chars (dec2bin value)) !! i)) b' b'
      eq_refl eq_refl) as (? & _).
  - unfold Legacy.store, storeState, for_loop.
    apply (for_each_related
      (λ b1 b2, state b1 = state b2
                ∧ notifications (trace b1) = notifications (trace b2))); [done|].
    intros i c1 c2 _ [Hst' Hn'].
    destruct (update_entry_revisions
      (prefix +:+ "." +:+ pretty (i + 1)%nat)
      (parseInt 10 (reverse (split_chars (dec2bin value)) !! i)) c1 c2 Hst' Hn')
      as (? & ? & ? & ?).
    done.
Qed.

(** X17. On a successful read the poll callbacks of the two revisions agree:
    from the same board, for a group with the same id and counts and the
    same response, they leave the same cache and have sent the same
    notifications in the same order. *)
Theorem poll_revisions (g : group) (data : list N) (b : board) :
  let old := LegacyBoard.stored (Legacy.Group (g_id g) (g_di g) (g_do g)) data in
  let new := state_cb g (Success data) in
  (old b).1 = (new b).1 ∧
  state (exec old b) = state (exec new b) ∧
  notifications (trace (exec old b)) = notifications (trace (exec new b)).
Proof.
  cbn zeta. unfold LegacyBoard.stored. cbn [state_cb Legacy.g_id Legacy.g_di Legacy.g_do].
  destruct (store_related ("DI" +:+ pretty (g_id g)) (data !! 0%nat) (g_di g) b b
              eq_refl eq_refl) as (Hok1 & Hst1 & Hn1).
  destruct (store_related ("DO" +:+ pretty (g_id g)) (data !! 1%nat) (g_do g) _ _
              Hst1 Hn1) as (Hok2 & Hst2 & Hn2).
  rewrite !result_bind, !exec_bind, Hok1, Hok2, !storeState_returns.
  done.
Qed.

(** ** The ids in the cache *)

Lemma keeps_shaped_update_entry (p : string) (g i : nat) v :
  p = "DI" ∨ p = "DO" →
  keeps keys_shaped (update_entry (key (p +:+ pretty g) i) v).
Proof.
  intros Hp b Hb id. rewrite update_entry_state.
  destruct (decide (key (p +:+ pretty g) i = id)) as [<-|Hne].
  - intros _. exists p, g, (i + 1)%nat. split; [done|]. by rewrite point_key.
  - rewrite lookup_insert_ne by done. apply Hb.
Qed.

Lemma keeps_shaped_storeState (p : string) (g : nat) value len :
  p = "DI" ∨ p = "DO" →
  keeps keys_shaped (storeState (p +:+ pretty g) value len).
Proof.
  intros Hp. apply keeps_for_each. intros i _.
  by apply (keeps_shaped_update_entry p g i).
Qed.

Lemma shaped_same_state b b' : state b' = state b → keys_shaped b → keys_shaped b'.
Proof. intros Hst Hb id. rewrite Hst. apply Hb. Qed.

Lemma set_state id value retries b : state (exec (set id value retries) b) = state b.
Proof.
  unfold exec. destruct (state b !! id) as [cur|] eqn:Hid.
  - by rewrite set_known by (by rewrite Hid).
  - by rewrite set_unknown.
Qed.

Lemma run_timer_state t b : state (exec (run_timer t) b) = state b.
Proof.
  destruct t as [id value r]. unfold exec, run_timer, verify, bind, getState.
  case_bool_decide; [|done]. unfold effectful at 1. cbn.
  match goal with |- state (set _ _ _ ?B).2 = _ => apply (set_state id value (S r) B) end.
Qed.

Lemma updateState_state b : state (exec updateState b) = state b.
Proof.
  unfold exec, updateState.
  apply (for_each_invariant (λ b', state b' = state b)); [done|].
  intros i b' _ Hb'. unfold exec. by destruct (mjoin (groups b !! i)).
Qed.

Lemma updateCount_state b : state (exec updateCount b) = state b.
Proof.
  unfold exec, updateCount.
  apply (for_each_invariant (λ b', state b' = state b)); [done|].
  intros i b' _ Hb'. unfold exec. by destruct (mjoin (groups b !! i)).
Qed.

Lemma keeps_shaped_handle e : keeps keys_shaped (handle e).
Proof.
  intros b Hb. destruct e as [id n|cb r| | |id value|k]; cbn [handle].
  - apply (shaped_same_state b); [|done]. unfold exec. by rewrite on_connect_run.
  - unfold exec. destruct (requested cb b); [|done].
    change (keys_shaped (exec (run_callback cb r) b)).
    destruct cb as [i|g|g], r as [err|data];
      cbn [run_callback capability_cb state_cb count_cb];
      try (apply (shaped_same_state b); [|done]; unfold exec;
           by rewrite report_error_raw).
    + by apply (shaped_same_state b).
    + apply (keeps_bind keys_shaped); [| |done].
      * apply (keeps_shaped_storeState "DI"). by left.
      * intros _. apply (keeps_shaped_storeState "DO"). by right.
    + apply (shaped_same_state b); [|done].
      apply (count_cb_state g (Success data)).
  - apply (shaped_same_state b); [apply updateState_state|done].
  - apply (shaped_same_state b); [apply updateCount_state|done].
  - apply (shaped_same_state b); [apply set_state|done].
  - unfold exec, bind, take_timer. cbn.
    destruct (timers b !! k) as [[t d]|]; cbn; [|done].
    eapply shaped_same_state; [apply run_timer_state|done].
Qed.

Lemma keeps_shaped_run es b : keys_shaped b → keys_shaped (run es b).
Proof.
  revert b. induction es as [|e es IH]; intros b Hb; [done|].
  apply IH. by apply keeps_shaped_handle.
Qed.

Lemma keys_shaped_new_board : keys_shaped new_board.
Proof. intros id [v Hv]. cbn [new_board state] in Hv. by rewrite lookup_empty in Hv. Qed.

(** X18. Whatever the events, the ids in the state cache are point ids:
    DI<group>.<index> or DO<group>.<index>, group and index in decimal. *)
Theorem cached_ids_are_points (es : list event) (id : string) :
  is_Some (state (run es new_board) !! id) →
  ∃ (p : string) (g n : nat),
    (p = "DI" ∨ p = "DO") ∧ id = p +:+ pretty g +:+ "." +:+ pretty n.
Proof.
  intros Hid.
  exact (keeps_shaped_run es new_board keys_shaped_new_board id Hid).
Qed.

Lemma cached_ids_are_points_witness :
  let es := [Connected 0 1;
             Responded (CapabilityCb 0) (Success [1028; 0]);
             PollStates;
             Responded (StateCb (Group 1 (Num 4) (Num 4) (Num 0) (Num 0) (Num 0)))
                       (Success [0; 0])] in
  state (run es new_board) !! "DI1.4" = Some (Num 0) ∧
  ∃ (p : string) (g n : nat),
    (p = "DI" ∨ p = "DO") ∧ "DI1.4" = p +:+ pretty g +:+ "." +:+ pretty n.
Proof.
  intros es.
  assert (Hid : state (run es new_board) !! "DI1.4" = Some (Num 0))
    by (vm_compute; reflexivity).
  split; [exact Hid|].
  apply (cached_ids_are_points es "DI1.4"). rewrite Hid. eexists. reflexivity.
Defined.
